(** * Asynchronous-SGD: the training driver [train.py]

    A shallow embedding of the driver script of the repository: the
    round-robin worker schedule and staleness factor of [train], the
    weight-decay pre-step, the clipping gate, the parameter snapshots handed
    to the parameter server, the loss bookkeeping ([AverageMeter]) and the
    checkpoint resume block of [main].

    Conventions.
    - Python integers are [Z]; [//] and [%] are floor division and floor
      modulo, which is what [Z.div] and [Z.modulo] compute, except that a
      zero divisor raises [ZeroDivisionError]: operations that can raise
      return [option].
    - Tensor entries are idealised as rationals ([Q]) where a property
      depends only on which entries are read, written and combined.  Code
      whose result is a number (the meters, [accuracy], the recorded loss)
      takes its arithmetic as a parameter: the exact arithmetic of [Q], or
      the IEEE-754 operations of [SpecFloat], binary64 for a Python float
      and binary32 for a float tensor.
    - Tensors live in a heap: a parameter holds the locations of its data
      and of its gradient, [clone] allocates, in-place operations overwrite.
    - Calls into collaborators that are not part of the script (the parameter
      server, the torch model, the statistics object, the progress bar) are
      recorded as a trace of events carrying the arguments the script
      computes for them.  A trace is the sequence of calls of a run in which
      every call returns; [None] in place of a trace is an exception of the
      script's own arithmetic (a division by zero), which ends the run
      whatever the calls do. *)

From Stdlib Require Import ZArith QArith SpecFloat Lia.
From stdpp Require Import base option list gmap strings pretty fin_maps.

Local Open Scope Z_scope.

(** ** Python integer arithmetic *)

Module Py.

(** [a // b] on integers. *)
Definition floordiv (a b : Z) : option Z :=
  if decide (b = 0) then None else Some (a `div` b).

(** [a % b] on integers. *)
Definition mod_ (a b : Z) : option Z :=
  if decide (b = 0) then None else Some (a `mod` b).

(** [a / b] on integers (true division). *)
Definition truediv (a b : Z) : option Q :=
  if decide (b = 0) then None else Some (inject_Z a / inject_Z b)%Q.

End Py.

(** ** The arithmetic of floats *)

Module Num.

(** The operations the script applies to numbers, with Python integers
    converted on the way in. *)
Record arith (F : Type) := Arith {
  of_int : Z → F;
  add : F → F → F;
  sub : F → F → F;
  mul : F → F → F;
  div : F → F → F
}.
Arguments of_int {F}.
Arguments add {F}.
Arguments sub {F}.
Arguments mul {F}.
Arguments div {F}.

(** Exact arithmetic. *)
Definition exact : arith Q := Arith Q inject_Z Qplus Qminus Qmult Qdiv.

(** IEEE-754 binary arithmetic, round to nearest even. *)
Definition binary (prec emax : Z) : arith spec_float :=
  Arith spec_float
    (λ z, binary_normalize prec emax z 0 false)
    (SFadd prec emax) (SFsub prec emax) (SFmul prec emax) (SFdiv prec emax).

(** The Python [float]. *)
Definition binary64 : arith spec_float := binary 53 1024.

(** [torch.float32], the type of a float tensor. *)
Definition binary32 : arith spec_float := binary 24 128.

(** A Python float handed to an operation of a float tensor is rounded to
    binary32. *)
Definition round32 (x : spec_float) : spec_float :=
  match x with
  | S754_finite s m e =>
      binary_normalize 24 128 (if s then Z.neg m else Z.pos m) e s
  | _ => x
  end.

(** The two kinds of numbers of the script: the entries of a float tensor
    and Python floats, with the conversion of a Python float into a tensor
    scalar.  An entry read from a tensor ([t[0]]) is a Python float of the
    same value. *)
Record floats (F : Type) := Floats {
  tensor : arith F;
  python : arith F;
  to_tensor : F → F
}.
Arguments tensor {F}.
Arguments python {F}.
Arguments to_tensor {F}.

Definition exact_floats : floats Q := Floats Q exact exact id.

Definition torch_floats : floats spec_float :=
  Floats spec_float binary32 binary64 round32.

(** 0.1, 0.2 and 0.3 as Python floats. *)
Definition tenth (k : Z) : spec_float :=
  div binary64 (of_int binary64 k) (of_int binary64 10).

End Num.

(** ** The training loop as a trace of collaborator calls *)

Module Train.

(** The calls the body of [train] makes, in program order.  A gradient
    snapshot and a step norm are named by the loader index of the batch
    that produced them. *)
Inductive event :=
| Pull (worker : Z)
    (* set_model_weights(server.pull(current_worker), model) *)
| ZeroGrad
    (* model.zero_grad() *)
| Forward (i : Z)
    (* output = model(input); loss = criterion(output, target) *)
| LossDiv (by_ : Z)
    (* loss.div_(batch_accumulate_num) *)
| Backward
    (* loss.backward() *)
| WeightDecay
    (* wd_pre_step(model) *)
| ClipGradNorm (max_norm : Q)
    (* torch.nn.utils.clip_grad_norm(model.parameters(), grad_clip) *)
| UpdateMeters (i : Z)
    (* train_loss.update(..); train_error.update(..) *)
| GetGradients (i : Z)
    (* gradients = get_model_gradients(model) *)
| Push (worker : Z) (gradients : Z) (epoch : Z) (tau : Q) (iteration : Z)
    (* step_norm = server.push(current_worker, gradients, epoch, tau=tau,
                               iteration=(i // batch_accumulate_num)) *)
| SaveStepNorm (step_norm : Z)
    (* statistics.save_step_norm(step_norm) *)
| BarNext.
    (* bar.next() *)

(** The arguments of [train] that the schedule depends on. *)
Record args := Args {
  epoch : Z;
  workers_number : Z;
  grad_clip : Q;
  batch_accumulate_num : Z;
  bar : bool            (* bar is not None *)
}.

Definition is_pull (e : event) : bool :=
  match e with Pull _ => true | _ => false end.

Definition is_push (e : event) : bool :=
  match e with Push _ _ _ _ _ => true | _ => false end.

Definition is_get_gradients (e : event) : bool :=
  match e with GetGradients _ => true | _ => false end.

Definition is_save_step_norm (e : event) : bool :=
  match e with SaveStepNorm _ => true | _ => false end.

Definition is_clip (e : event) : bool :=
  match e with ClipGradNorm _ => true | _ => false end.

Definition is_forward (e : event) : bool :=
  match e with Forward _ => true | _ => false end.

Definition is_backward (e : event) : bool :=
  match e with Backward => true | _ => false end.

Definition is_weight_decay (e : event) : bool :=
  match e with WeightDecay => true | _ => false end.

(** Calls that talk to the server or hand something to it. *)
Definition is_server_call (e : event) : bool :=
  is_pull e || is_push e || is_get_gradients e || is_save_step_norm e.

Definition count (p : event → bool) (l : list event) : nat :=
  length (List.filter p l).

Section Body.
Variable a : args.

(** [current_accumulate_num = i % batch_accumulate_num] *)
Definition current_accumulate_num (i : Z) : option Z :=
  Py.mod_ i (batch_accumulate_num a).

(** [current_worker = (i // batch_accumulate_num) % workers_number] *)
Definition current_worker (i : Z) : option Z :=
  g ← Py.floordiv i (batch_accumulate_num a);
  Py.mod_ g (workers_number a).

(** [tau = (i // batch_accumulate_num - current_worker) / workers_number + 1] *)
Definition tau (i : Z) : option Q :=
  g ← Py.floordiv i (batch_accumulate_num a);
  w ← current_worker i;
  q ← Py.truediv (g - w) (workers_number a);
  Some (q + 1)%Q.

(** What every pass does between the optional pull and the optional push:
    forward, scaled loss, backward, weight decay, gated clipping, meters. *)
Definition compute_events (i : Z) : list event :=
  [Forward i; LossDiv (batch_accumulate_num a); Backward; WeightDecay]
  ++ (if Qlt_le_dec (grad_clip a) 1000
      then [ClipGradNorm (grad_clip a)] else [])
  ++ [UpdateMeters i].

(** The events of one pass through the body of the [for] loop of [train],
    at loader index [i]: the calls the pass makes, with their arguments, if
    each of them returns.  [None] is the division by zero of the index
    arithmetic, the only exception of the pass itself; what the calls raise
    ([accuracy], the meters, [get_model_gradients], [set_model_weights]) is
    theirs and is stated with them. *)
Definition train_body (i : Z) : option (list event) :=
  can ← current_accumulate_num i;
  w ← current_worker i;
  let first := bool_decide (can = 0) in
  let last := bool_decide (can = batch_accumulate_num a - 1) in
  tail ←
    (if last then
       t ← tau i;
       g ← Py.floordiv i (batch_accumulate_num a);
       Some [GetGradients i; Push w i (epoch a) t g; SaveStepNorm i]
     else Some []);
  Some ((if first then [Pull w; ZeroGrad] else [])
        ++ compute_events i
        ++ tail
        ++ (if bar a then [BarNext] else [])).

(** The loop over the batches [start, start + 1, ..]: an exception in one
    pass ends the run. *)
Fixpoint train_range (start : Z) (len : nat) : option (list event) :=
  match len with
  | O => Some []
  | S len' =>
      evs ← train_body start;
      rest ← train_range (start + 1) len';
      Some (evs ++ rest)
  end.

(** The passes strictly inside a group, [len] of them from index [start]:
    neither a pull nor a push. *)
Fixpoint inner_passes (start : Z) (len : nat) : list event :=
  match len with
  | O => []
  | S len' =>
      (compute_events start ++ (if bar a then [BarNext] else []))
      ++ inner_passes (start + 1) len'
  end.

(** [train] over a loader of [n] batches ([enumerate] counts from 0). *)
Definition train (n : nat) : option (list event) := train_range 0 n.

(** The [g]-th gradient-accumulation group: loader indices
    [g * batch_accumulate_num .. (g + 1) * batch_accumulate_num - 1]. *)
Definition train_group (g : Z) : option (list event) :=
  train_range (g * batch_accumulate_num a) (Z.to_nat (batch_accumulate_num a)).

End Body.

End Train.

(** ** Parameters, gradients and their snapshots *)

Module Torch.

(** Locations of tensors; the entries of a tensor, flattened; the heap. *)
Abbreviation loc := positive.
Abbreviation tensor := (list Q).
Abbreviation heap := (gmap positive (list Q)).

(** A parameter of the model: where its values live and, once a backward
    pass has run, where its gradient lives ([weight.grad] is [None]
    before). *)
Record parameter := Param {
  data : loc;
  grad : option loc
}.

(** The modules [model.modules()] yields, by the only distinction the
    script makes. *)
Inductive module_ :=
| Conv2d (weight : parameter) (bias : option parameter)
| Linear (weight : parameter) (bias : option parameter)
| OtherModule (params : list (string * parameter)).

(** A model: its modules, each with the prefix [named_parameters] puts
    before the module's own parameter names. *)
Definition model := list (string * module_).

Definition own_parameters (m : module_) : list (string * parameter) :=
  match m with
  | Conv2d w b | Linear w b =>
      ("weight"%string, w) ::
      match b with Some b => [("bias"%string, b)] | None => [] end
  | OtherModule ps => ps
  end.

Definition qualify (prefix : string) (np : string * parameter)
  : string * parameter :=
  ((prefix +:+ np.1)%string, np.2).

(** [model.named_parameters()] *)
Definition named_parameters (m : model) : list (string * parameter) :=
  flat_map (λ pm, qualify pm.1 <$> own_parameters pm.2) m.

(** [c * t] *)
Definition t_scale (c : Q) (t : tensor) : tensor := Qmult c <$> t.

(** [a.add_(b)], entry by entry. *)
Definition t_add (a b : tensor) : tensor := zip_with Qplus a b.

(** [m.weight.grad.add_(weight_decay * m.weight)]: fails when the
    gradient is [None]; the gradient has the shape of its parameter. *)
Definition add_decay (weight_decay : Q) (weight : parameter) (h : heap)
  : option heap :=
  gl ← grad weight;
  g ← h !! gl;
  w ← h !! data weight;
  if decide (length g = length w)
  then Some (<[gl := t_add g (t_scale weight_decay w)]> h)
  else None.

(** The loop of [wd_pre_step] over [model.modules()]. *)
Fixpoint wd_pre_step_modules (weight_decay : Q) (ms : model) (h : heap)
  : option heap :=
  match ms with
  | [] => Some h
  | (_, m) :: ms' =>
      h' ← match m with
           | Conv2d w _ | Linear w _ => add_decay weight_decay w h
           | OtherModule _ => Some h
           end;
      wd_pre_step_modules weight_decay ms' h'
  end.

(** The default of the [weight_decay] argument, [1e-4]. *)
Definition weight_decay_default : Q := 1 # 10000.

(** [wd_pre_step(model)], as [train] calls it: no [weight_decay] is
    passed. *)
Definition wd_pre_step (m : model) (h : heap) : option heap :=
  wd_pre_step_modules weight_decay_default m h.

(** The gradients [wd_pre_step] writes to, and the weights it reads. *)
Definition decayed (m : model) : list parameter :=
  flat_map (λ pm, match pm.2 with
                  | Conv2d w _ | Linear w _ => [w]
                  | OtherModule _ => []
                  end) m.

(** The locations of the gradients [wd_pre_step] writes to. *)
Definition decay_locs (m : model) : list loc := omap grad (decayed m).

(** [t.clone()]: a new tensor with the entries of [t]. *)
Definition clone (l : loc) (h : heap) : option (loc * heap) :=
  t ← h !! l;
  let l' := fresh (dom h) in
  Some (l', <[l' := t]> h).

(** The loop of [get_model_gradients]:
    [gradients[name] = weight.grad.clone()]. *)
Fixpoint get_model_gradients_from (ps : list (string * parameter))
    (gradients : gmap string loc) (h : heap)
  : option (gmap string loc * heap) :=
  match ps with
  | [] => Some (gradients, h)
  | (name, weight) :: ps' =>
      g ← grad weight;
      r ← clone g h;
      get_model_gradients_from ps' (<[name := r.1]> gradients) r.2
  end.

Definition get_model_gradients (m : model) (h : heap)
  : option (gmap string loc * heap) :=
  get_model_gradients_from (named_parameters m) ∅ h.

(** The loop of [get_model_weights]: [weights[name] = weight.clone()]. *)
Fixpoint get_model_weights_from (ps : list (string * parameter))
    (weights : gmap string loc) (h : heap)
  : option (gmap string loc * heap) :=
  match ps with
  | [] => Some (weights, h)
  | (name, weight) :: ps' =>
      r ← clone (data weight) h;
      get_model_weights_from ps' (<[name := r.1]> weights) r.2
  end.

Definition get_model_weights (m : model) (h : heap)
  : option (gmap string loc * heap) :=
  get_model_weights_from (named_parameters m) ∅ h.

(** The common shape of the two loops: clone the tensor [sel] picks from
    each parameter and store the clone under the parameter's name. *)
Fixpoint clone_each (sel : parameter → option loc)
    (ps : list (string * parameter)) (d : gmap string loc) (h : heap)
  : option (gmap string loc * heap) :=
  match ps with
  | [] => Some (d, h)
  | (name, weight) :: ps' =>
      l ← sel weight;
      r ← clone l h;
      clone_each sel ps' (<[name := r.1]> d) r.2
  end.

(** What a dictionary of tensors holds in a heap. *)
Definition contents (d : gmap string loc) (h : heap) : gmap string tensor :=
  omap (λ l, h !! l) d.

(** In-place operations on existing tensors ([zero_], [add_], the
    accumulation of [backward], ..): each rewrites the entries at one
    location. *)
Definition mutate (h : heap) (ms : list (loc * (tensor → tensor))) : heap :=
  foldl (λ h m, alter m.2 m.1 h) h ms.

(** The tensors of the model: data and gradients of its parameters. *)
Definition param_locs (p : parameter) : list loc :=
  data p :: match grad p with Some g => [g] | None => [] end.

Definition model_locs (m : model) : list loc :=
  flat_map (λ np, param_locs np.2) (named_parameters m).

(** A small model for concrete runs: a linear layer with a bias, then a
    batch-norm layer; every parameter has a gradient. *)
Definition fc_weight : parameter := Param 1 (Some 2%positive).
Definition fc_bias : parameter := Param 3 (Some 4%positive).
Definition bn_weight : parameter := Param 5 (Some 6%positive).

Definition toy_model : model :=
  [("fc."%string, Linear fc_weight (Some fc_bias));
   ("bn."%string, OtherModule [("weight"%string, bn_weight)])].

Definition toy_heap : heap :=
  list_to_map
    [(1%positive, [2; 4]%Q); (2%positive, [1; 1]%Q);
     (3%positive, [1]%Q); (4%positive, [0]%Q);
     (5%positive, [1]%Q); (6%positive, [0]%Q)].

End Torch.

(** ** [AverageMeter] *)

Module AverageMeter.

Record meter (F : Type) := Meter {
  avg : F;
  sum : F;
  count : Z
}.
Arguments Meter {F}.
Arguments avg {F}.
Arguments sum {F}.
Arguments count {F}.

Section Arith.
Context {F : Type} (A : Num.arith F).

(** [reset] *)
Definition reset : meter F := Meter (Num.of_int A 0) (Num.of_int A 0) 0.

(** [update(val, n)]: [val] is a float and [n] an integer, the count
    stays an integer, and the division raises when the count is zero. *)
Definition update (m : meter F) (val : F) (n : Z) : option (meter F) :=
  let sum' := Num.add A (sum m) (Num.mul A val (Num.of_int A n)) in
  let count' := count m + n in
  if decide (count' = 0) then None
  else Some (Meter (Num.div A sum' (Num.of_int A count')) sum' count').

(** A sequence of [update] calls. *)
Fixpoint updates (m : meter F) (us : list (F * Z)) : option (meter F) :=
  match us with
  | [] => Some m
  | (val, n) :: us' => m' ← update m val n; updates m' us'
  end.


End Arith.



(** Two updates: 1.5 over a batch of 4, then 0.5 over a batch of 12. *)
Definition sample_updates : list (Q * Z) :=
  [((3 # 2)%Q, 4); ((1 # 2)%Q, 12)].

End AverageMeter.

(** ** The loss that is recorded *)

Module Loss.

(** The arithmetic of the loss tensor. *)
Record arith (F : Type) := Arith {
  of_int : Z → F;
  div_ : F → F → F;
  mul : F → F → F
}.
Arguments of_int {F}.
Arguments div_ {F}.
Arguments mul {F}.

(** [loss.div_(batch_accumulate_num)] followed by
    [loss.data[0] * batch_accumulate_num], the value handed to
    [train_loss.update]. *)
Definition recorded_loss {F} (A : arith F) (loss : F)
    (batch_accumulate_num : Z) : F :=
  let loss' := div_ A loss (of_int A batch_accumulate_num) in
  mul A loss' (of_int A batch_accumulate_num).

(** Exact arithmetic. *)
Definition exact : arith Q := Arith Q inject_Z Qdiv Qmult.

(** IEEE-754 binary arithmetic, round to nearest even. *)
Definition binary (prec emax : Z) : arith spec_float :=
  Arith spec_float
    (λ z, binary_normalize prec emax z 0 false)
    (SFdiv prec emax)
    (SFmul prec emax).

(** [torch.float32], the default type of a tensor. *)
Definition binary32 : arith spec_float := binary 24 128.

(** [float64], the Python [float]. *)
Definition binary64 : arith spec_float := binary 53 1024.

(** Two other ways the same two lines are carried out, depending on the
    kernel and on what [loss.data[0]] is: division as multiplication by the
    rounded reciprocal, and a binary32 quotient read as a Python float and
    multiplied in binary64. *)
Definition recorded_loss_reciprocal {F} (A : arith F) (loss : F)
    (batch_accumulate_num : Z) : F :=
  let r := div_ A (of_int A 1) (of_int A batch_accumulate_num) in
  mul A (mul A loss r) (of_int A batch_accumulate_num).

Definition recorded_loss_python_float (loss : spec_float)
    (batch_accumulate_num : Z) : spec_float :=
  let loss' := div_ binary32 loss (of_int binary32 batch_accumulate_num) in
  mul binary64 loss' (of_int binary64 batch_accumulate_num).

End Loss.

(** ** The resume block of [main] *)

Module Main.

Section Resume.
Variables Server Statistics Model StateDict : Type.

(** [model.load_state_dict], the one call of the block that can refuse a
    checkpoint. *)
Variable load_state_dict : Model → StateDict → option Model.

(** The dictionary [save_checkpoint] writes and [torch.load] returns. *)
Record checkpoint := Checkpoint {
  ck_epoch : Z;
  ck_state_dict : StateDict;
  ck_val_stats : Statistics;
  ck_train_stats : Statistics;
  ck_server : Server
}.

(** The variables of [main] the block assigns. *)
Record run := Run {
  start_epoch : Z;
  server : Server;
  val_statistics : Statistics;
  train_statistics : Statistics;
  model : Model
}.

(** [if args.resume: ..]: [files] is what [os.path.isfile] and
    [torch.load] see; [None] as a result is an exception leaving [main]. *)
Definition resume (args_resume : string) (files : string → option checkpoint)
    (r : run) : option run :=
  if decide (args_resume = ""%string) then Some r
  else
    match files (args_resume +:+ "/checkpoint.pth.tar")%string with
    | Some ck =>
        m ← load_state_dict (model r) (ck_state_dict ck);
        Some (Run (ck_epoch ck) (ck_server ck) (ck_val_stats ck)
                  (ck_train_stats ck) m)
    | None => Some r
    end.

End Resume.

Arguments Checkpoint {_ _ _}.
Arguments Run {_ _ _}.
Arguments ck_epoch {_ _ _}.
Arguments ck_state_dict {_ _ _}.
Arguments ck_val_stats {_ _ _}.
Arguments ck_train_stats {_ _ _}.
Arguments ck_server {_ _ _}.
Arguments start_epoch {_ _ _}.
Arguments server {_ _ _}.
Arguments val_statistics {_ _ _}.
Arguments train_statistics {_ _ _}.
Arguments model {_ _ _}.
Arguments resume {_ _ _ _}.

(** The strict loading torch does by default: the names and the shapes of
    the state dictionary must be those of the model. *)
Definition strict_load_state_dict (m sd : gmap string (list Q))
  : option (gmap string (list Q)) :=
  if decide (length <$> sd = length <$> m) then Some sd else None.

(** Modelled from the spec: the ParameterServer class is not part of the
    script; of a server only the configuration it was constructed with is
    kept, the number of workers and the aggregation mode. *)
Record server_config := ServerConfig {
  workers_num : Z;
  asynchronous : bool
}.

(** A run configured for four asynchronous workers, and a checkpoint
    written by a run of eight synchronous workers on the same model. *)
Definition toy_run : run server_config (list Q) (gmap string (list Q)) :=
  Run 0 (ServerConfig 4 true) [] []
      {["module.fc.weight"%string := [0; 0]%Q]}.

Definition toy_checkpoint
  : checkpoint server_config (list Q) (gmap string (list Q)) :=
  Checkpoint 7 {["module.fc.weight"%string := [1; 2]%Q]} [3%Q] [4%Q]
             (ServerConfig 8 false).

Definition toy_files (path : string)
  : option (checkpoint server_config (list Q) (gmap string (list Q))) :=
  if decide (path = "run/checkpoint.pth.tar"%string)
  then Some toy_checkpoint else None.

End Main.

(** ** The server calls of a run *)

Module Calls.

(** What a trace shows the server and the statistics: pulls, snapshots,
    pushes and step norms, in order. *)
Definition server_calls (evs : list Train.event) : list Train.event :=
  List.filter Train.is_server_call evs.

(** The calls of a complete group [g]. *)
Definition group_calls (a : Train.args) (g : Z) : list Train.event :=
  let b := Train.batch_accumulate_num a in
  let w := g `mod` Train.workers_number a in
  [Train.Pull w;
   Train.GetGradients (g * b + (b - 1));
   Train.Push w (g * b + (b - 1)) (Train.epoch a)
     (inject_Z (g - w) / inject_Z (Train.workers_number a) + 1)%Q g;
   Train.SaveStepNorm (g * b + (b - 1))].

Definition is_zero_grad (e : Train.event) : bool :=
  match e with Train.ZeroGrad => true | _ => false end.

End Calls.

(** ** What [main] derives from its arguments, and its loop over epochs *)

Module Epochs.

(** [batch_accumulate_num], as [main] sets it. *)
Definition batch_accumulate_num (batch_size : Z) (dataset model : string)
  : Z :=
  if decide (256 < batch_size ∧ dataset = "imagenet"%string
             ∧ model = "resnet"%string)
  then batch_size `div` 256 else 1.

(** [args.iterations_per_epoch], from the number of training samples. *)
Definition iterations_per_epoch (batch_size : Z) (dataset model : string)
    (samples : Z) : option Z :=
  if decide (dataset = "imagenet"%string) then
    if decide (1 < batch_accumulate_num batch_size dataset model)
    then Py.floordiv samples 256
    else Py.floordiv samples batch_size
  else Py.floordiv samples batch_size.

(** What one pass of the loop over epochs does. *)
Inductive step :=
| TrainEpoch (epoch : Z)
    (* train(train_loader, model, criterion, server, epoch, ..) *)
| Validate (epoch : Z)
    (* validate(val_loader, model, criterion, server, ..) *)
| SaveStatistics (epoch : Z)
    (* train_statistics.save_loss(..) .. save_gradient_norm(..) *)
| SaveCheckpoint (stored_epoch : Z) (sim_name : string).
    (* save_checkpoint({'epoch': epoch + 1, ..}, sim_name=..) *)

(** [args.name + time_stamp + '_' + str(epoch)] *)
Definition sim_name (name time_stamp : string) (epoch : Z) : string :=
  (name +:+ time_stamp +:+ "_" +:+ pretty epoch)%string.

(** The body of [for epoch in range(args.start_epoch, args.epochs)]: the
    steps of an epoch in which [train] and [validate] return.
    [epoch % args.save] is computed before [epoch > 0] is looked at; [None]
    is its division by zero, the only exception of the body itself. *)
Definition epoch_body (name time_stamp : string) (save : Z) (epoch : Z)
  : option (list step) :=
  r ← Py.mod_ epoch save;
  Some ([TrainEpoch epoch; Validate epoch; SaveStatistics epoch]
        ++ (if decide (r = 0 ∧ 0 < epoch)
            then [SaveCheckpoint (epoch + 1) (sim_name name time_stamp epoch)]
            else [])).

Fixpoint epochs_from (name time_stamp : string) (save : Z) (start : Z)
    (len : nat) : option (list step) :=
  match len with
  | O => Some []
  | S len' =>
      evs ← epoch_body name time_stamp save start;
      rest ← epochs_from name time_stamp save (start + 1) len';
      Some (evs ++ rest)
  end.

(** The loop, from [args.start_epoch] to [args.epochs]. *)
Definition epoch_loop (name time_stamp : string) (save : Z)
    (start_epoch epochs : Z) : option (list step) :=
  epochs_from name time_stamp save start_epoch
              (Z.to_nat (epochs - start_epoch)).

(** [save_checkpoint(state, filename, sim_name)]: the file system is the
    map from paths to what was saved under them. *)
Definition backups : string := "/media/drive/ehoffer/backups/".

Definition save_checkpoint {C : Type} (state : C) (filename sim_name : string)
    (fs : gmap string C) : gmap string C :=
  let directory := (backups +:+ sim_name +:+ "/")%string in
  <[(directory +:+ filename)%string := state]> fs.

(** The default of the [filename] argument. *)
Definition checkpoint_file : string := "checkpoint.pth.tar".

End Epochs.

(** ** [accuracy] *)

Module Accuracy.

(** [output.float().topk(maxk, 1, True, True)] is left to the library:
    [pred] is what it returns, for each sample the [maxk] classes ranked
    first, best first (before the transposition); the call raises unless
    [0 <= maxk <= classes], where [classes] is [output.size(1)]. *)

(** [max(topk)]: raises on an empty sequence. *)
Definition max_ (topk : list Z) : option Z :=
  match topk with
  | [] => None
  | k :: ks => Some (foldr Z.max k ks)
  end.

(** [target.view(1, -1).expand_as(pred)], one entry per sample: the
    targets as they are when there is one per sample; a single target is
    repeated for every sample; any other number of targets raises. *)
Definition expand_as (target : list Z) (samples : nat) : option (list Z) :=
  if decide (length target = samples) then Some target
  else match target with
       | [t] => Some (replicate samples t)
       | _ => None
       end.

(** [x[:k]]: a negative [k] counts from the end. *)
Definition upto {A} (k : Z) (l : list A) : list A :=
  if decide (0 ≤ k) then take (Z.to_nat k) l
  else take (length l - Z.to_nat (- k)) l.

(** How often the target of a sample is among its classes up to [k]: the
    column of the sample in [correct[:k]]. *)
Definition hits (k : Z) (row : list Z) (t : Z) : Z :=
  Z.of_nat (length (List.filter (λ c, bool_decide (c = t)) (upto k row))).

(** [correct[:k].view(-1).float().sum(0)] *)
Definition correct_k (pred : list (list Z)) (expanded : list Z) (k : Z) : Z :=
  foldr Z.add 0 (zip_with (hits k) pred expanded).

(** [correct_k.mul_(100.0 / batch_size)]: the count is an entry of a
    float tensor, the quotient a Python float, rounded to the tensor's type
    before the product. *)
Definition scaled {F} (N : Num.floats F) (hits_k batch_size : Z) : F :=
  Num.mul (Num.tensor N) (Num.of_int (Num.tensor N) hits_k)
    (Num.to_tensor N
       (Num.div (Num.python N) (Num.of_int (Num.python N) 100)
                (Num.of_int (Num.python N) batch_size))).

(** [accuracy(output, target, topk)]; [batch_size] is [target.size(0)],
    and [100.0 / batch_size] raises when it is 0. *)
Definition accuracy {F} (N : Num.floats F) (classes : Z)
    (pred : list (list Z)) (target : list Z) (topk : list Z)
  : option (list F) :=
  maxk ← max_ topk;
  let batch_size := Z.of_nat (length target) in
  if decide (0 ≤ maxk ≤ classes) then
    expanded ← expand_as target (length pred);
    mapM (λ k, if decide (batch_size = 0) then None
               else Some (scaled N (correct_k pred expanded k) batch_size))
         topk
  else None.


(** A batch of [n] samples over two classes, each ranking its target
    first. *)
Definition all_correct (n : nat) : list (list Z) * list Z :=
  (replicate n [0; 1], replicate n 0).

End Accuracy.

(** ** [set_model_weights] and [normalize_gradients] *)

Module Weights.
Import Torch.

(** [weights[name].cuda()]: the tensor itself when it is already on the
    device, a copy otherwise; [cuda] is [None] when
    [torch.cuda.is_available()] is false, and else tells the tensors on the
    device. *)
Definition placed (cuda : option (loc → bool)) (l : loc) (h : heap)
  : option (loc * heap) :=
  match cuda with
  | None => Some (l, h)
  | Some on_device => if on_device l then Some (l, h) else clone l h
  end.

(** [weight.data = weights[name]...] for one parameter: a missing name is
    a [KeyError]. *)
Definition set_parameter (cuda : option (loc → bool))
    (weights : gmap string loc) (name : string) (weight : parameter)
    (h : heap) : option (parameter * heap) :=
  l ← weights !! name;
  r ← placed cuda l h;
  Some (Param r.1 (grad weight), r.2).

(** The loop of [set_model_weights] over a list of named parameters. *)
Fixpoint set_parameters (cuda : option (loc → bool))
    (weights : gmap string loc) (ps : list (string * parameter)) (h : heap)
  : option (list (string * parameter) * heap) :=
  match ps with
  | [] => Some ([], h)
  | (name, weight) :: ps' =>
      r ← set_parameter cuda weights name weight h;
      rest ← set_parameters cuda weights ps' r.2;
      Some ((name, r.1) :: rest.1, rest.2)
  end.

(** [set_model_weights(weights, model)]: the parameters of the model, as
    [named_parameters] yields them, after the call. *)
Definition set_model_weights (cuda : option (loc → bool))
    (weights : gmap string loc) (m : model) (h : heap)
  : option (list (string * parameter) * heap) :=
  set_parameters cuda weights (named_parameters m) h.

(** The pulled tensor is used as it is: no CUDA, or already on the
    device. *)
Definition used_in_place (cuda : option (loc → bool)) (l : loc) : Prop :=
  match cuda with None => True | Some on_device => on_device l = true end.

(** What the call leaves in a parameter: the name and the gradient as they
    were, the entries of the tensor pulled under the name, and that tensor
    itself where it is used in place. *)
Definition loaded (cuda : option (loc → bool)) (weights : gmap string loc)
    (h h' : heap) (np np' : string * parameter) : Prop :=
  np'.1 = np.1 ∧ grad np'.2 = grad np.2 ∧
  ∃ l t, weights !! np.1 = Some l ∧ h !! l = Some t ∧
         h' !! data np'.2 = Some t ∧
         (used_in_place cuda l → data np'.2 = l).

(** [t.div_(c)], entry by entry, for [c] other than 0 (a float tensor
    divided by 0 holds infinities and NaNs, which the rationals lack). *)
Definition t_div (t : tensor) (c : Q) : tensor := (λ x, x / c)%Q <$> t.

(** The loop of [normalize_gradients] over [model.parameters()]:
    [weight.grad.div_(norm_factor)]. *)
Fixpoint normalize_parameters (norm_factor : Q) (ps : list parameter)
    (h : heap) : option heap :=
  match ps with
  | [] => Some h
  | weight :: ps' =>
      gl ← grad weight;
      g ← h !! gl;
      normalize_parameters norm_factor ps' (<[gl := t_div g norm_factor]> h)
  end.

Definition normalize_gradients (m : model) (norm_factor : Q) (h : heap)
  : option heap :=
  normalize_parameters norm_factor ((λ np, np.2) <$> named_parameters m) h.

(** The pulled weights of the toy model, as the server would hand them
    out. *)
Definition toy_weights : gmap string loc :=
  list_to_map
    [("fc.weight"%string, 1%positive); ("fc.bias"%string, 3%positive);
     ("bn.weight"%string, 5%positive)].

End Weights.

(** ** The meters of [train] and [validate] *)

Module Meters.


(** [total_loss] as [validate] feeds it, in exact arithmetic: the loss
    itself. *)
Definition total_loss (batches : list (Q * Z))
  : option (AverageMeter.meter Q) :=
  AverageMeter.updates Num.exact (AverageMeter.reset Num.exact) batches.

End Meters.

(** ** The loop of [validate] *)

Module Validate.
Import AverageMeter.

(** One batch of the loader, as the loop sees it: the loss of the batch,
    the ranked classes of its output, one row per sample, and its
    targets. *)
Record batch (F : Type) := Batch {
  loss : F;
  pred : list (list Z);
  target : list Z
}.
Arguments Batch {F}.
Arguments loss {F}.
Arguments pred {F}.
Arguments target {F}.

(** [input.size(0)] *)
Definition size {F} (bt : batch F) : Z := Z.of_nat (length (pred bt)).

Section Arith.
Context {F : Type} (N : Num.floats F).

Local Abbreviation meters := (meter F * meter F * meter F)%type.

(** The body of the loop on the meters [total_loss], [error] and
    [error_5]:
    [total_loss.update(loss.data[0], input.size(0))],
    [prec1, prec5 = accuracy(output.data, target, topk=(1, 5))],
    [error.update(100 - prec1[0], input.size(0))],
    [error_5.update(100 - prec5[0], input.size(0))]. *)
Definition validate_body (classes : Z) (ms : meters) (bt : batch F)
  : option meters :=
  total_loss ← update (Num.python N) ms.1.1 (loss bt) (size bt);
  res ← Accuracy.accuracy N classes (pred bt) (target bt) [1; 5];
  prec1 ← res !! 0%nat;
  prec5 ← res !! 1%nat;
  error ← update (Num.python N) ms.1.2
             (Num.sub (Num.python N) (Num.of_int (Num.python N) 100) prec1)
             (size bt);
  error_5 ← update (Num.python N) ms.2
               (Num.sub (Num.python N) (Num.of_int (Num.python N) 100) prec5)
               (size bt);
  Some (total_loss, error, error_5).

Fixpoint validate_loop (classes : Z) (ms : meters) (bts : list (batch F))
  : option meters :=
  match bts with
  | [] => Some ms
  | bt :: bts' =>
      ms' ← validate_body classes ms bt;
      validate_loop classes ms' bts'
  end.

(** What [validate] saves and returns: [total_loss.avg], [error.avg] and
    [error_5.avg]. *)
Definition validate (classes : Z) (bts : list (batch F))
  : option (F * F * F) :=
  ms ← validate_loop classes
          (reset (Num.python N), reset (Num.python N), reset (Num.python N))
          bts;
  Some (avg ms.1.1, avg ms.1.2, avg ms.2).

End Arith.





End Validate.

(** * Facts *)

(** ** Python integer arithmetic *)

Lemma floordiv_Some a b : b ≠ 0 → Py.floordiv a b = Some (a `div` b).
Proof. intros Hb. unfold Py.floordiv. by rewrite decide_False. Qed.

Lemma mod_Some a b : b ≠ 0 → Py.mod_ a b = Some (a `mod` b).
Proof. intros Hb. unfold Py.mod_. by rewrite decide_False. Qed.

Lemma truediv_Some a b :
  b ≠ 0 → Py.truediv a b = Some (inject_Z a / inject_Z b)%Q.
Proof. intros Hb. unfold Py.truediv. by rewrite decide_False. Qed.

(** A quotient of integers that divides evenly is that integer. *)
Lemma Qdiv_exact (k w : Z) :
  w ≠ 0 → (inject_Z (w * k) / inject_Z w == inject_Z k)%Q.
Proof.
  intros Hw. rewrite inject_Z_mult. field.
  intros H. unfold Qeq in H. simpl in H. lia.
Qed.

Lemma inject_Z_le_1 (k : Z) : 0 ≤ k → (1 <= inject_Z k + 1)%Q.
Proof.
  intros Hk. change 1%Q with (inject_Z 1) at 2. rewrite <- inject_Z_plus.
  change 1%Q with (inject_Z 1). rewrite <- Zle_Qle. lia.
Qed.

(** ** The schedule of [train] *)

Section Schedule.
Import Train.
Variable a : args.
Let b := batch_accumulate_num a.
Let W := workers_number a.

Lemma current_worker_Some i :
  b ≠ 0 → W ≠ 0 → current_worker a i = Some ((i `div` b) `mod` W).
Proof.
  intros Hb HW. unfold current_worker. fold b W.
  rewrite floordiv_Some by done. simpl. by apply mod_Some.
Qed.

Lemma tau_Some i :
  b ≠ 0 → W ≠ 0 →
  tau a i = Some (inject_Z (i `div` b - (i `div` b) `mod` W) / inject_Z W + 1)%Q.
Proof.
  intros Hb HW. unfold tau. rewrite current_worker_Some by done. fold b W.
  rewrite floordiv_Some by done. simpl.
  by rewrite truediv_Some.
Qed.

(** The staleness factor is one more than the number of full rounds. *)
Lemma tau_value (g : Z) :
  0 < W →
  (inject_Z (g - g `mod` W) / inject_Z W + 1 == inject_Z (g `div` W) + 1)%Q.
Proof.
  intros HW.
  replace (g - g `mod` W) with (W * (g `div` W)).
  - rewrite Qdiv_exact by lia. reflexivity.
  - pose proof (Z.div_mod g W). lia.
Qed.

(** The shape of one pass, by the position [r] in the group [g]. *)
Lemma train_body_at g r :
  0 < b → W ≠ 0 → 0 ≤ r < b →
  train_body a (g * b + r)
  = Some ((if decide (r = 0) then [Pull (g `mod` W); ZeroGrad] else [])
          ++ compute_events a (g * b + r)
          ++ (if decide (r = b - 1)
              then [GetGradients (g * b + r);
                    Push (g `mod` W) (g * b + r) (epoch a)
                         (inject_Z (g - g `mod` W) / inject_Z W + 1)%Q g;
                    SaveStepNorm (g * b + r)]
              else [])
          ++ (if bar a then [BarNext] else [])).
Proof.
  intros Hb HW Hr.
  assert (Hdiv : (g * b + r) `div` b = g) by (symmetry; apply (Z.div_unique _ _ _ r); lia).
  assert (Hmod : (g * b + r) `mod` b = r) by (symmetry; apply (Z.mod_unique _ _ g r); lia).
  unfold train_body, current_accumulate_num. fold b W.
  rewrite mod_Some by lia. simpl.
  rewrite current_worker_Some by (fold b; lia). fold b W. simpl.
  rewrite Hmod, Hdiv.
  destruct (decide (r = b - 1)) as [Hl|Hl].
  - rewrite (bool_decide_eq_true_2 (r = b - 1)) by done.
    rewrite tau_Some by (fold b; lia). fold b W. simpl.
    rewrite floordiv_Some by lia. simpl. rewrite Hdiv.
    destruct (decide (r = 0)) as [H0|H0].
    + by rewrite (bool_decide_eq_true_2 (r = 0)).
    + by rewrite (bool_decide_eq_false_2 (r = 0)).
  - rewrite (bool_decide_eq_false_2 (r = b - 1)) by done. simpl.
    destruct (decide (r = 0)) as [H0|H0].
    + by rewrite (bool_decide_eq_true_2 (r = 0)).
    + by rewrite (bool_decide_eq_false_2 (r = 0)).
Qed.

Lemma train_body_index i :
  0 < b → W ≠ 0 →
  train_body a i
  = Some ((if decide (i `mod` b = 0)
           then [Pull ((i `div` b) `mod` W); ZeroGrad] else [])
          ++ compute_events a i
          ++ (if decide (i `mod` b = b - 1)
              then [GetGradients i;
                    Push ((i `div` b) `mod` W) i (epoch a)
                         (inject_Z (i `div` b - (i `div` b) `mod` W)
                          / inject_Z W + 1)%Q (i `div` b);
                    SaveStepNorm i]
              else [])
          ++ (if bar a then [BarNext] else [])).
Proof.
  intros Hb HW.
  pose proof (Z.div_mod i b ltac:(lia)) as Hi.
  pose proof (Z.mod_pos_bound i b Hb) as Hr.
  replace i with (i `div` b * b + i `mod` b) at 1 by lia.
  rewrite train_body_at by done.
  replace (i `div` b * b + i `mod` b) with i by lia. done.
Qed.

Lemma compute_events_no_server_call i :
  Forall (λ e, is_server_call e = false) (compute_events a i).
Proof.
  unfold compute_events. destruct (Qlt_le_dec _ _); repeat constructor.
Qed.

Lemma elem_of_compute_events_push i w g ep t it :
  Push w g ep t it ∉ compute_events a i.
Proof.
  intros H. pose proof (compute_events_no_server_call i) as HF.
  rewrite Forall_forall in HF. by apply HF in H.
Qed.

Lemma elem_of_compute_events_pull i w : Pull w ∉ compute_events a i.
Proof.
  intros H. pose proof (compute_events_no_server_call i) as HF.
  rewrite Forall_forall in HF. by apply HF in H.
Qed.

End Schedule.

Section Counting.
Import Train.

Lemma count_app p (l1 l2 : list event) :
  count p (l1 ++ l2) = (count p l1 + count p l2)%nat.
Proof. unfold count. by rewrite List.filter_app, length_app. Qed.

Lemma count_cons p e (l : list event) :
  count p (e :: l) = ((if p e then 1 else 0) + count p l)%nat.
Proof. unfold count. simpl. by destruct (p e). Qed.

Lemma count_none p (l : list event) :
  Forall (λ e, p e = false) l → count p l = 0%nat.
Proof.
  induction 1 as [|e l He _ IH]; [done|].
  rewrite count_cons, He, IH. done.
Qed.

Lemma train_range_app a start n m :
  train_range a start (n + m)
  = evs1 ← train_range a start n;
    evs2 ← train_range a (start + Z.of_nat n) m;
    Some (evs1 ++ evs2).
Proof.
  revert start. induction n as [|n IH]; intros start.
  - simpl. rewrite Z.add_0_r. by destruct (train_range a start m).
  - simpl. destruct (train_body a start) as [evs|]; [simpl|done].
    rewrite IH.
    replace (start + 1 + Z.of_nat n) with (start + Z.of_nat (S n)) by lia.
    destruct (train_range a (start + 1) n) as [evs1|]; [simpl|done].
    destruct (train_range a (start + Z.of_nat (S n)) m) as [evs2|];
      [simpl|done].
    by rewrite app_assoc.
Qed.

Lemma count_compute_events_backward a i :
  count is_backward (compute_events a i) = 1%nat.
Proof. unfold compute_events. by destruct (Qlt_le_dec _ _). Qed.

Lemma count_compute_events_forward a i :
  count is_forward (compute_events a i) = 1%nat.
Proof. unfold compute_events. by destruct (Qlt_le_dec _ _). Qed.

Lemma count_compute_events_clip a i :
  count is_clip (compute_events a i)
  = if Qlt_le_dec (grad_clip a) 1000 then 1%nat else 0%nat.
Proof. unfold compute_events. by destruct (Qlt_le_dec _ _). Qed.

Lemma elem_of_compute_events_clip a i c :
  ClipGradNorm c ∈ compute_events a i ↔
  c = grad_clip a ∧ (grad_clip a < 1000)%Q.
Proof.
  unfold compute_events. destruct (Qlt_le_dec _ _) as [Hlt|Hge]; simpl.
  - rewrite !elem_of_cons, elem_of_nil. split.
    + intros [?|[?|[?|[?|[?|[?|[]]]]]]]; by simplify_eq.
    + intros [-> _]. do 4 right. by left.
  - rewrite !elem_of_cons, elem_of_nil. split.
    + intros [?|[?|[?|[?|[?|[]]]]]]; by simplify_eq.
    + intros [_ Hlt]. exfalso. by apply (Qlt_not_le _ _ Hlt).
Qed.

Lemma inner_passes_no_server_call a start n :
  Forall (λ e, is_server_call e = false) (inner_passes a start n).
Proof.
  revert start. induction n as [|n IH]; intros start; [constructor|].
  cbn [inner_passes]. rewrite !Forall_app. split_and!.
  - apply compute_events_no_server_call.
  - destruct (bar a); repeat constructor.
  - apply IH.
Qed.

Lemma count_inner_passes a p start n :
  p BarNext = false →
  (∀ i, count p (compute_events a i) = 1%nat) →
  count p (inner_passes a start n) = n.
Proof.
  intros Hbar Hp. revert start.
  induction n as [|n IH]; intros start; [done|].
  cbn [inner_passes]. rewrite !count_app, Hp, IH.
  destruct (bar a); [rewrite count_cons, Hbar|]; done.
Qed.

(** The passes strictly inside group [g] run without a pull or a push. *)
Lemma train_range_inner a g r n :
  0 < batch_accumulate_num a → workers_number a ≠ 0 →
  0 < r → r + Z.of_nat n ≤ batch_accumulate_num a - 1 →
  train_range a (g * batch_accumulate_num a + r) n
  = Some (inner_passes a (g * batch_accumulate_num a + r) n).
Proof.
  intros Hb HW. revert r. induction n as [|n IH]; intros r Hr Hn; [done|].
  cbn [train_range inner_passes]. rewrite train_body_at by (done || lia).
  rewrite decide_False by lia. rewrite decide_False by lia.
  cbn [mbind option_bind].
  replace (g * batch_accumulate_num a + r + 1)
    with (g * batch_accumulate_num a + (r + 1)) by lia.
  rewrite IH by lia. cbn [mbind option_bind]. by rewrite !app_nil_l.
Qed.

End Counting.

Section ComputeTail.
Import Train.

Lemma compute_events_head a i :
  compute_events a i = Forward i :: tail (compute_events a i).
Proof. done. Qed.

Lemma compute_tail_no_server_call a i :
  Forall (λ e, is_server_call e = false) (tail (compute_events a i)).
Proof.
  unfold compute_events. simpl. destruct (Qlt_le_dec _ _); repeat constructor.
Qed.

Lemma count_compute_tail_forward a i :
  count is_forward (tail (compute_events a i)) = 0%nat.
Proof. unfold compute_events. simpl. by destruct (Qlt_le_dec _ _). Qed.

Lemma count_compute_tail_backward a i :
  count is_backward (tail (compute_events a i)) = 1%nat.
Proof. unfold compute_events. simpl. by destruct (Qlt_le_dec _ _). Qed.

Lemma count_bar p (bar : bool) :
  p BarNext = false → count p (if bar then [BarNext] else []) = 0%nat.
Proof. intros H. destruct bar; [|done]. by rewrite count_cons, H. Qed.

End ComputeTail.

(** ** Properties of the schedule *)

(** C1: at every loader index [i >= 0], with positive
    [batch_accumulate_num] and [workers_number], the pass runs; a push is
    issued on the last batch of a group; and every push carries
    [iteration = i // batch_accumulate_num], the round-robin worker, and
    [tau = (iteration - worker) / workers_number + 1], which is at least 1. *)
Theorem push_tau_at_least_one (a : Train.args) (i : Z) :
  0 < Train.batch_accumulate_num a → 0 < Train.workers_number a → 0 ≤ i →
  ∃ evs, Train.train_body a i = Some evs ∧
    (i `mod` Train.batch_accumulate_num a = Train.batch_accumulate_num a - 1 →
     ∃ w t, Train.Push w i (Train.epoch a) t
              (i `div` Train.batch_accumulate_num a) ∈ evs) ∧
    ∀ w g ep t it, Train.Push w g ep t it ∈ evs →
      it = i `div` Train.batch_accumulate_num a ∧
      w = it `mod` Train.workers_number a ∧
      t = (inject_Z (it - w) / inject_Z (Train.workers_number a) + 1)%Q ∧
      (t == inject_Z (it `div` Train.workers_number a) + 1)%Q ∧
      (1 <= t)%Q.
Proof.
  intros Hb HW Hi. eexists. split; [by apply train_body_index; lia|].
  split.
  - intros Hlast.
    rewrite (decide_True (P := i `mod` _ = _ - 1)) by done. do 2 eexists.
    rewrite !elem_of_app. right. right. left.
    rewrite !elem_of_cons. right. left. done.
  - intros w g ep t it.
    rewrite !elem_of_app. intros [H|[H|[H|H]]].
    + destruct (decide _); [|by apply elem_of_nil in H].
      rewrite !elem_of_cons, elem_of_nil in H. by destruct H as [?|[?|[]]].
    + by apply elem_of_compute_events_push in H.
    + destruct (decide _); [|by apply elem_of_nil in H].
      rewrite !elem_of_cons, elem_of_nil in H.
      destruct H as [?|[H|[?|[]]]]; try done.
      injection H as -> -> -> -> ->.
      assert (0 ≤ i `div` Train.batch_accumulate_num a)
        by (apply Z.div_pos; lia).
      split_and!; try done.
      * apply tau_value. lia.
      * rewrite tau_value by lia. apply inject_Z_le_1.
        apply Z.div_pos; lia.
    + destruct (Train.bar a); [|by apply elem_of_nil in H].
      rewrite !elem_of_cons, elem_of_nil in H. by destruct H as [?|[]].
Qed.

Lemma push_tau_at_least_one_witness :
  ∃ evs, Train.train_body (Train.Args 3 4 5 2 true) 7 = Some evs ∧
    (∃ w t, Train.Push w 7 3 t 3 ∈ evs) ∧
    ∀ w g ep t it, Train.Push w g ep t it ∈ evs →
      it = 3 ∧ w = 3 ∧ (t == 1)%Q ∧ (1 <= t)%Q.
Proof.
  destruct (push_tau_at_least_one (Train.Args 3 4 5 2 true) 7)
    as (evs & Hrun & Hpush & Hall); [simpl; lia..|].
  exists evs. split; [exact Hrun|]. split; [apply Hpush; reflexivity|].
  intros w g ep t it H.
  destruct (Hall w g ep t it H) as (-> & -> & _ & Ht & Hle).
  split; [reflexivity|]. split; [reflexivity|]. split; [exact Ht|exact Hle].
Defined.

Lemma mod_succ (g W : Z) :
  0 < W →
  (g + 1) `mod` W = if decide (g `mod` W = W - 1) then 0 else g `mod` W + 1.
Proof.
  intros HW. pose proof (Z.div_mod g W ltac:(lia)) as Hg.
  pose proof (Z.mod_pos_bound g W HW) as Hm.
  destruct (decide _) as [He|Hne]; symmetry.
  - apply (Z.mod_unique _ _ (g `div` W + 1)); lia.
  - apply (Z.mod_unique _ _ (g `div` W)); lia.
Qed.

(** C4: the worker of a pass is [(i // batch_accumulate_num) %
    workers_number]; the pull of a group's first batch and the push of its
    last batch both use it; it lies in [0, workers_number), is 0 for the
    first group, and from one group to the next it advances by one and
    wraps from [workers_number - 1] to 0. *)
Theorem worker_round_robin (a : Train.args) (i : Z) :
  0 < Train.batch_accumulate_num a → 0 < Train.workers_number a →
  ∃ evs cw, Train.train_body a i = Some evs ∧
    Train.current_worker a i = Some cw ∧
    cw = (i `div` Train.batch_accumulate_num a) `mod` Train.workers_number a ∧
    0 ≤ cw < Train.workers_number a ∧
    (∀ w, Train.Pull w ∈ evs → w = cw) ∧
    (∀ w g ep t it, Train.Push w g ep t it ∈ evs → w = cw) ∧
    (i `mod` Train.batch_accumulate_num a = 0 → Train.Pull cw ∈ evs) ∧
    (i `mod` Train.batch_accumulate_num a = Train.batch_accumulate_num a - 1 →
     ∃ t, Train.Push cw i (Train.epoch a) t
            (i `div` Train.batch_accumulate_num a) ∈ evs) ∧
    (0 ≤ i < Train.batch_accumulate_num a → cw = 0) ∧
    Train.current_worker a (i + Train.batch_accumulate_num a)
    = Some (if decide (cw = Train.workers_number a - 1) then 0 else cw + 1).
Proof.
  intros Hb HW. do 2 eexists.
  split; [by apply train_body_index; lia|].
  split; [by apply current_worker_Some; lia|].
  split; [done|].
  split; [by apply Z.mod_pos_bound|].
  split_and!.
  - intros w. rewrite !elem_of_app. intros [H|[H|[H|H]]].
    + destruct (decide _); [|by apply elem_of_nil in H].
      rewrite !elem_of_cons, elem_of_nil in H.
      destruct H as [H|[?|[]]]; [|done]. by injection H.
    + by apply elem_of_compute_events_pull in H.
    + destruct (decide _); [|by apply elem_of_nil in H].
      rewrite !elem_of_cons, elem_of_nil in H. by destruct H as [?|[?|[?|[]]]].
    + destruct (Train.bar a); [|by apply elem_of_nil in H].
      rewrite !elem_of_cons, elem_of_nil in H. by destruct H as [?|[]].
  - intros w g ep t it. rewrite !elem_of_app. intros [H|[H|[H|H]]].
    + destruct (decide _); [|by apply elem_of_nil in H].
      rewrite !elem_of_cons, elem_of_nil in H. by destruct H as [?|[?|[]]].
    + by apply elem_of_compute_events_push in H.
    + destruct (decide _); [|by apply elem_of_nil in H].
      rewrite !elem_of_cons, elem_of_nil in H.
      destruct H as [?|[H|[?|[]]]]; try done. by injection H.
    + destruct (Train.bar a); [|by apply elem_of_nil in H].
      rewrite !elem_of_cons, elem_of_nil in H. by destruct H as [?|[]].
  - intros H0. rewrite (decide_True (P := i `mod` _ = 0)) by done.
    rewrite !elem_of_app. left. apply elem_of_cons. by left.
  - intros Hlast.
    rewrite (decide_True (P := i `mod` _ = _ - 1)) by done. eexists.
    rewrite !elem_of_app. right. right. left.
    rewrite !elem_of_cons. right. left. done.
  - intros Hi. rewrite Z.div_small by done. by apply Z.mod_0_l; lia.
  - rewrite current_worker_Some by lia. f_equal.
    replace ((i + Train.batch_accumulate_num a) `div` Train.batch_accumulate_num a)
      with (i `div` Train.batch_accumulate_num a + 1).
    + by apply mod_succ.
    + replace (i + Train.batch_accumulate_num a)
        with (i + 1 * Train.batch_accumulate_num a) by lia.
      rewrite Z.div_add by lia. done.
Qed.

Lemma worker_round_robin_witness :
  ∃ evs, Train.train_body (Train.Args 3 4 5 2 true) 7 = Some evs ∧
    Train.current_worker (Train.Args 3 4 5 2 true) 7 = Some 3 ∧
    (∀ w, Train.Pull w ∈ evs → w = 3) ∧
    (∀ w g ep t it, Train.Push w g ep t it ∈ evs → w = 3) ∧
    (∃ t, Train.Push 3 7 3 t 3 ∈ evs) ∧
    Train.current_worker (Train.Args 3 4 5 2 true) 9 = Some 0.
Proof.
  destruct (worker_round_robin (Train.Args 3 4 5 2 true) 7)
    as (evs & cw & Hrun & Hcw & -> & _ & Hpull & Hpush & _ & Hlast & _ & Hnext);
    [simpl; lia..|].
  exists evs. split; [exact Hrun|]. split; [exact Hcw|].
  split; [exact Hpull|]. split; [exact Hpush|].
  split; [apply Hlast; reflexivity|exact Hnext].
Defined.

(** The clipping calls of a run of [len] passes. *)
Lemma train_range_clip (a : Train.args) (start : Z) (len : nat) :
  0 < Train.batch_accumulate_num a → 0 < Train.workers_number a →
  ∃ evs, Train.train_range a start len = Some evs ∧
    Train.count Train.is_clip evs
    = (if Qlt_le_dec (Train.grad_clip a) 1000 then len else 0%nat) ∧
    ∀ c, Train.ClipGradNorm c ∈ evs →
         c = Train.grad_clip a ∧ (Train.grad_clip a < 1000)%Q.
Proof.
  intros Hb HW. revert start.
  induction len as [|len IH]; intros start.
  - exists []. split; [done|]. split; [by destruct (Qlt_le_dec _ _)|].
    intros c H. by apply elem_of_nil in H.
  - destruct (IH (start + 1)) as (rest & Hrest & Hcount & Hin).
    cbn [Train.train_range]. rewrite train_body_index by lia.
    cbn [mbind option_bind]. rewrite Hrest. cbn [mbind option_bind].
    eexists. split; [done|]. split.
    + rewrite !count_app, Hcount, count_compute_events_clip.
      destruct (Qlt_le_dec _ _), (decide _), (decide _), (Train.bar a);
        reflexivity.
    + intros c. rewrite !elem_of_app. intros [[H|[H|[H|H]]]|H].
      * destruct (decide _); [|by apply elem_of_nil in H].
        rewrite !elem_of_cons, elem_of_nil in H. by destruct H as [?|[?|[]]].
      * by apply elem_of_compute_events_clip in H.
      * destruct (decide _); [|by apply elem_of_nil in H].
        rewrite !elem_of_cons, elem_of_nil in H.
        by destruct H as [?|[?|[?|[]]]].
      * destruct (Train.bar a); [|by apply elem_of_nil in H].
        rewrite !elem_of_cons, elem_of_nil in H. by destruct H as [?|[]].
      * by apply Hin.
Qed.

(** C3: over a run of [n] batches, [clip_grad_norm] is called in every
    pass, with [grad_clip] as the ceiling, when [grad_clip < 1000], and it
    is never called when [grad_clip >= 1000]. *)
Theorem clip_iff_below_sentinel (a : Train.args) (n : nat) :
  0 < Train.batch_accumulate_num a → 0 < Train.workers_number a →
  ∃ evs, Train.train a n = Some evs ∧
    ((0 < n)%nat →
     ((∃ c, Train.ClipGradNorm c ∈ evs) ↔ (Train.grad_clip a < 1000)%Q)) ∧
    (∀ c, Train.ClipGradNorm c ∈ evs → c = Train.grad_clip a) ∧
    ((Train.grad_clip a < 1000)%Q → Train.count Train.is_clip evs = n) ∧
    ((1000 <= Train.grad_clip a)%Q →
     Train.count Train.is_clip evs = 0%nat ∧
     ∀ c, Train.ClipGradNorm c ∉ evs).
Proof.
  intros Hb HW.
  destruct (train_range_clip a 0 n Hb HW) as (evs & Hevs & Hcount & Hin).
  exists evs. split; [done|]. split_and!.
  - intros Hn. split.
    + intros [c Hc]. by apply Hin in Hc as [_ ?].
    + intros Hlt. destruct (Qlt_le_dec _ _) as [_|Hge] in Hcount;
        [|by apply Qlt_not_le in Hlt].
      unfold Train.count in Hcount.
      destruct (List.filter Train.is_clip evs) as [|e l] eqn:Hf;
        [simpl in Hcount; lia|].
      assert (He : List.In e (List.filter Train.is_clip evs))
        by (rewrite Hf; by left).
      apply List.filter_In in He as [He1 He2].
      destruct e; try done. eexists. by apply list_elem_of_In.
  - intros c Hc. by apply Hin.
  - intros Hlt. destruct (Qlt_le_dec _ _) as [_|Hge] in Hcount; [done|].
    by apply Qlt_not_le in Hlt.
  - intros Hge. split.
    + destruct (Qlt_le_dec _ _) as [Hlt|_] in Hcount; [|done].
      by apply Qlt_not_le in Hlt.
    + intros c Hc. apply Hin in Hc as [_ Hlt]. by apply Qlt_not_le in Hlt.
Qed.

Lemma clip_iff_below_sentinel_witness :
  (∃ evs, Train.train (Train.Args 3 4 5 2 true) 4 = Some evs ∧
     (∃ c, Train.ClipGradNorm c ∈ evs) ∧
     Train.count Train.is_clip evs = 4%nat) ∧
  (∃ evs, Train.train (Train.Args 3 4 1000 2 true) 4 = Some evs ∧
     Train.count Train.is_clip evs = 0%nat ∧
     ∀ c, Train.ClipGradNorm c ∉ evs).
Proof.
  split.
  - destruct (clip_iff_below_sentinel (Train.Args 3 4 5 2 true) 4)
      as (evs & Hrun & Hiff & _ & Hbelow & _); [simpl; lia..|].
    exists evs. split; [exact Hrun|]. split.
    + apply Hiff; [lia|reflexivity].
    + apply Hbelow. reflexivity.
  - destruct (clip_iff_below_sentinel (Train.Args 3 4 1000 2 true) 4)
      as (evs & Hrun & _ & _ & _ & Habove); [simpl; lia..|].
    exists evs. split; [exact Hrun|]. apply Habove. discriminate.
Defined.

Section GroupShape.
Import Train.
Variable a : args.
Local Abbreviation b := (batch_accumulate_num a).
Local Abbreviation W := (workers_number a).

(** The events of a whole group: pull, passes, snapshot, push, step norm. *)
Lemma train_group_shape g :
  0 < b → 0 < W →
  ∃ mid,
    train_group a g
    = Some ([Pull (g `mod` W); ZeroGrad; Forward (g * b)]
            ++ mid
            ++ [GetGradients (g * b + (b - 1));
                Push (g `mod` W) (g * b + (b - 1)) (epoch a)
                  (inject_Z (g - g `mod` W) / inject_Z W + 1)%Q g;
                SaveStepNorm (g * b + (b - 1))]
            ++ (if bar a then [BarNext] else [])) ∧
    Forall (λ e, is_server_call e = false) mid ∧
    count is_forward (Forward (g * b) :: mid) = Z.to_nat b ∧
    count is_backward mid = Z.to_nat b.
Proof.
  intros Hb HW. unfold train_group.
  replace (Forward (g * b)) with (Forward (g * b + 0)) by (f_equal; lia).
  destruct (decide (b = 1)) as [Hb1|Hb1].
  - (* the group is a single batch *)
    replace (train_range a (g * b) (Z.to_nat b))
      with (train_range a (g * b + 0) 1) by (f_equal; lia).
    cbn [train_range].
    rewrite train_body_at by lia.
    rewrite decide_True by done. rewrite decide_True by lia.
    cbn [mbind option_bind].
    exists (tail (compute_events a (g * b + 0))).
    split_and!.
    + rewrite app_nil_r. f_equal.
      replace (g * b + (b - 1)) with (g * b + 0) by lia.
      rewrite (compute_events_head a (g * b + 0)) at 1.
      cbn [app]. done.
    + apply compute_tail_no_server_call.
    + rewrite count_cons, count_compute_tail_forward. simpl. lia.
    + rewrite count_compute_tail_backward. lia.
  - (* first batch, inner batches, last batch *)
    replace (train_range a (g * b) (Z.to_nat b))
      with (train_range a (g * b + 0) (1 + (Z.to_nat (b - 2) + 1)))
      by (f_equal; lia).
    rewrite train_range_app. cbn [train_range].
    rewrite train_body_at by lia.
    rewrite decide_True by done. rewrite decide_False by lia.
    cbn [mbind option_bind].
    rewrite train_range_app.
    replace (g * b + 0 + Z.of_nat 1) with (g * b + 1) by lia.
    rewrite train_range_inner by lia.
    cbn [mbind option_bind train_range].
    replace (g * b + 1 + Z.of_nat (Z.to_nat (b - 2)))
      with (g * b + (b - 1)) by lia.
    rewrite train_body_at by lia.
    rewrite decide_False by lia. rewrite decide_True by done.
    cbn [mbind option_bind].
    exists (tail (compute_events a (g * b + 0))
            ++ (if bar a then [BarNext] else [])
            ++ inner_passes a (g * b + 1) (Z.to_nat (b - 2))
            ++ compute_events a (g * b + (b - 1))).
    split_and!.
    + f_equal. rewrite !app_nil_r, !app_nil_l.
      rewrite (compute_events_head a (g * b + 0)) at 1.
      cbn [app]. rewrite <- ?app_assoc. done.
    + rewrite !Forall_app. split_and!.
      * apply compute_tail_no_server_call.
      * destruct (bar a); repeat constructor.
      * apply inner_passes_no_server_call.
      * apply compute_events_no_server_call.
    + rewrite count_cons, !count_app. cbn [is_forward].
      rewrite (count_inner_passes a is_forward) by
        (done || apply count_compute_events_forward).
      rewrite count_compute_events_forward, count_compute_tail_forward.
      rewrite count_bar by done. lia.
    + rewrite !count_app.
      rewrite (count_inner_passes a is_backward) by
        (done || apply count_compute_events_backward).
      rewrite count_compute_events_backward, count_compute_tail_backward.
      rewrite count_bar by done. lia.
Qed.

End GroupShape.

(** C5: the [g]-th group of [batch_accumulate_num] consecutive batches
    begins with the pull of the group's worker, followed by the first
    forward pass; it ends with the snapshot of the gradients, their push by
    the same worker and the forwarding of the step norm that push returned;
    between the two there is no call to the server, and all
    [batch_accumulate_num] forward and backward passes are there.  Hence
    one pull, one snapshot, one push and one step norm per group. *)
Theorem group_pull_then_push (a : Train.args) (g : Z) :
  0 < Train.batch_accumulate_num a → 0 < Train.workers_number a →
  ∃ evs mid t,
    Train.train_group a g = Some evs ∧
    evs = [Train.Pull (g `mod` Train.workers_number a); Train.ZeroGrad;
           Train.Forward (g * Train.batch_accumulate_num a)]
          ++ mid
          ++ [Train.GetGradients
                (g * Train.batch_accumulate_num a
                 + (Train.batch_accumulate_num a - 1));
              Train.Push (g `mod` Train.workers_number a)
                (g * Train.batch_accumulate_num a
                 + (Train.batch_accumulate_num a - 1))
                (Train.epoch a) t g;
              Train.SaveStepNorm
                (g * Train.batch_accumulate_num a
                 + (Train.batch_accumulate_num a - 1))]
          ++ (if Train.bar a then [Train.BarNext] else []) ∧
    Forall (λ e, Train.is_server_call e = false) mid ∧
    Train.count Train.is_forward
      (Train.Forward (g * Train.batch_accumulate_num a) :: mid)
    = Z.to_nat (Train.batch_accumulate_num a) ∧
    Train.count Train.is_backward mid
    = Z.to_nat (Train.batch_accumulate_num a) ∧
    Train.count Train.is_pull evs = 1%nat ∧
    Train.count Train.is_get_gradients evs = 1%nat ∧
    Train.count Train.is_push evs = 1%nat ∧
    Train.count Train.is_save_step_norm evs = 1%nat.
Proof.
  intros Hb HW.
  destruct (train_group_shape a g Hb HW) as (mid & Hgroup & Hmid & Hfw & Hbw).
  eexists _, mid, _. split; [exact Hgroup|]. split; [done|].
  split; [done|]. split; [done|]. split; [done|].
  assert (Hz : ∀ p, (∀ e, p e = true → Train.is_server_call e = true) →
               Train.count p mid = 0%nat).
  { intros p Hp. apply count_none. eapply Forall_impl; [exact Hmid|].
    intros e He. simpl in He. destruct (p e) eqn:Hpe; [|done].
    apply Hp in Hpe. congruence. }
  split_and!.
  - rewrite !count_app, Hz; [by destruct (Train.bar a)|].
    by intros [].
  - rewrite !count_app, Hz; [by destruct (Train.bar a)|].
    by intros [].
  - rewrite !count_app, Hz; [by destruct (Train.bar a)|].
    by intros [].
  - rewrite !count_app, Hz; [by destruct (Train.bar a)|].
    by intros [].
Qed.

Lemma group_pull_then_push_witness :
  ∃ evs mid t,
    Train.train_group (Train.Args 3 4 5 2 true) 5 = Some evs ∧
    evs = [Train.Pull (5 `mod` 4); Train.ZeroGrad; Train.Forward (5 * 2)]
          ++ mid
          ++ [Train.GetGradients (5 * 2 + (2 - 1));
              Train.Push (5 `mod` 4) (5 * 2 + (2 - 1)) 3 t 5;
              Train.SaveStepNorm (5 * 2 + (2 - 1))]
          ++ [Train.BarNext] ∧
    Forall (λ e, Train.is_server_call e = false) mid ∧
    Train.count Train.is_forward (Train.Forward (5 * 2) :: mid)
    = Z.to_nat 2 ∧
    Train.count Train.is_backward mid = Z.to_nat 2 ∧
    Train.count Train.is_pull evs = 1%nat ∧
    Train.count Train.is_get_gradients evs = 1%nat ∧
    Train.count Train.is_push evs = 1%nat ∧
    Train.count Train.is_save_step_norm evs = 1%nat.
Proof.
  apply (group_pull_then_push (Train.Args 3 4 5 2 true) 5); simpl; lia.
Defined.

(** *** The schedule on concrete runs *)

(** Two workers, groups of two batches, five batches: workers 0, 1, 0; the
    third group is cut short by the end of the loader and pulls without
    pushing. *)
Example train_five_batches :
  Train.train (Train.Args 0 2 1000 2 false) 5
  = Some [Train.Pull 0; Train.ZeroGrad;
          Train.Forward 0; Train.LossDiv 2; Train.Backward;
          Train.WeightDecay; Train.UpdateMeters 0;
          Train.Forward 1; Train.LossDiv 2; Train.Backward;
          Train.WeightDecay; Train.UpdateMeters 1;
          Train.GetGradients 1;
          Train.Push 0 1 0 (inject_Z (0 - 0) / inject_Z 2 + 1)%Q 0;
          Train.SaveStepNorm 1;
          Train.Pull 1; Train.ZeroGrad;
          Train.Forward 2; Train.LossDiv 2; Train.Backward;
          Train.WeightDecay; Train.UpdateMeters 2;
          Train.Forward 3; Train.LossDiv 2; Train.Backward;
          Train.WeightDecay; Train.UpdateMeters 3;
          Train.GetGradients 3;
          Train.Push 1 3 0 (inject_Z (1 - 1) / inject_Z 2 + 1)%Q 1;
          Train.SaveStepNorm 3;
          Train.Pull 0; Train.ZeroGrad;
          Train.Forward 4; Train.LossDiv 2; Train.Backward;
          Train.WeightDecay; Train.UpdateMeters 4].
Proof. reflexivity. Qed.

(** The second round of the same two workers: [tau] is 2. *)
Example tau_second_round :
  ∃ t, Train.tau (Train.Args 0 2 1000 2 false) 5 = Some t ∧ (t == 2)%Q.
Proof. eexists. split; reflexivity. Qed.

(** A zero [batch_accumulate_num] or [workers_number] raises at the first
    pass. *)
Example train_zero_divisors :
  Train.train (Train.Args 0 2 1000 0 false) 1 = None ∧
  Train.train (Train.Args 0 0 1000 2 false) 1 = None.
Proof. split; reflexivity. Qed.

(** [train] accepts a negative [workers_number], for which [tau] can drop
    below 1: the bound needs a positive number of workers. *)
Example tau_negative_workers :
  ∃ t, Train.tau (Train.Args 0 (-1) 1000 1 false) 2 = Some t ∧ (t == -1)%Q.
Proof. eexists. split; reflexivity. Qed.

(** ** Tensors in the heap *)

Section Heap.
Import Torch.

Lemma clone_Some l (h : heap) r :
  clone l h = Some r →
  ∃ t, h !! l = Some t ∧ (r.1 ∉ dom h) ∧ r.2 = <[r.1 := t]> h.
Proof.
  unfold clone. destruct (h !! l) as [t|]; [|done]. simpl.
  intros [= <-]. exists t. split; [done|]. split; [|done].
  simpl. apply is_fresh.
Qed.

Lemma clone_is_Some l (h : heap) : l ∈ dom h → is_Some (clone l h).
Proof.
  intros [t Ht]%elem_of_dom. unfold clone. rewrite Ht. simpl. eauto.
Qed.

Lemma get_model_gradients_from_clone_each ps d (h : heap) :
  get_model_gradients_from ps d h = clone_each grad ps d h.
Proof.
  revert d h. induction ps as [|[name w] ps IH]; intros d h; [done|].
  simpl. destruct (grad w) as [g|]; [simpl|done].
  destruct (clone g h) as [r|]; [simpl|done]. apply IH.
Qed.

Lemma get_model_weights_from_clone_each ps d (h : heap) :
  get_model_weights_from ps d h = clone_each (λ p, Some (data p)) ps d h.
Proof.
  revert d h. induction ps as [|[name w] ps IH]; intros d h; [done|].
  simpl. destruct (clone (data w) h) as [r|]; [simpl|done]. apply IH.
Qed.

(** The loop only allocates: what was in the heap stays; every name of the
    list gets an entry; and an entry the loop wrote is a tensor that did not
    exist before, holding the entries of the tensor picked from a parameter
    of that name. *)
Lemma clone_each_spec sel ps d (h : heap) d' h' :
  (∀ np l, np ∈ ps → sel np.2 = Some l → l ∈ dom h) →
  clone_each sel ps d h = Some (d', h') →
  (∀ l, l ∈ dom h → h' !! l = h !! l) ∧
  (∀ name, is_Some (d' !! name) ↔
           is_Some (d !! name) ∨ ∃ p, (name, p) ∈ ps) ∧
  (∀ name c, d' !! name = Some c →
     d !! name = Some c ∨
     ((c ∉ dom h) ∧ ∃ p l t, (name, p) ∈ ps ∧ sel p = Some l ∧
                           h !! l = Some t ∧ h' !! c = Some t)).
Proof.
  revert d h. induction ps as [|[name w] ps IH]; intros d h Hwf Hrun.
  - simpl in Hrun. injection Hrun as <- <-. split_and!; [done| |by left].
    intros name. split; [by left|]. intros [?|[p Hp]]; [done|].
    by apply elem_of_nil in Hp.
  - simpl in Hrun.
    destruct (sel w) as [l0|] eqn:Hsel; [simpl in Hrun|done].
    destruct (clone l0 h) as [r|] eqn:Hclone; [simpl in Hrun|done].
    apply clone_Some in Hclone as (t0 & Hl0 & Hfresh & Hr2).
    destruct r as [c0 h1]; simpl in *. subst h1.
    apply IH in Hrun as (Hkeep & Hnames & Hentries).
    2:{ intros np l Hnp Hl. rewrite dom_insert_L.
        apply elem_of_union_r. eapply Hwf; [|done]. by right. }
    assert (Hkeep' : ∀ l, l ∈ dom h → h' !! l = h !! l).
    { intros l Hl. rewrite Hkeep.
      - apply lookup_insert_ne. intros ->. done.
      - rewrite dom_insert_L. by apply elem_of_union_r. }
    split_and!; [done| |].
    + intros n. rewrite Hnames. rewrite lookup_insert_is_Some. split.
      * intros [[<-|[_ ?]]|[p Hp]].
        -- right. exists w. by left.
        -- by left.
        -- right. exists p. by right.
      * intros [?|[p Hp]].
        -- destruct (decide (name = n)); left; [by left|by right].
        -- apply elem_of_cons in Hp as [[= -> ->]|Hp].
           ++ left. by left.
           ++ right. by exists p.
    + intros n c Hc. apply Hentries in Hc as [Hc|(Hc & p & l & t & Hp & Hs & Hl & Ht)].
      * apply lookup_insert_Some in Hc as [[<- <-]|[_ Hc]]; [|by left].
        right. split; [done|]. exists w, l0, t0. split_and!; try done.
        -- by left.
        -- rewrite Hkeep; [by rewrite lookup_insert_eq|].
           rewrite dom_insert_L. apply elem_of_union_l.
           by apply elem_of_singleton.
      * right. rewrite dom_insert_L in Hc.
        split; [by intros ?; apply Hc, elem_of_union_r|]. exists p, l, t. split_and!; try done.
        -- by right.
        -- rewrite lookup_insert_ne in Hl; [done|].
           intros ->. apply Hfresh. eapply (Hwf (n, p)); [by right|done].
Qed.

Lemma clone_each_is_Some sel ps d (h : heap) :
  (∀ np, np ∈ ps → ∃ l, sel np.2 = Some l ∧ l ∈ dom h) →
  is_Some (clone_each sel ps d h).
Proof.
  revert d h. induction ps as [|[name w] ps IH]; intros d h Hwf; [by eexists|].
  simpl. destruct (Hwf (name, w)) as (l & Hl & Hdom); [by left|].
  simpl in Hl. rewrite Hl. simpl.
  destruct (clone_is_Some l h Hdom) as [r Hr]. rewrite Hr. simpl.
  apply IH. intros np Hnp. destruct (Hwf np) as (l' & Hl' & Hdom'); [by right|].
  exists l'. split; [done|].
  apply clone_Some in Hr as (t & _ & _ & ->). rewrite dom_insert_L.
  by apply elem_of_union_r.
Qed.

(** In-place operations elsewhere do not reach a location. *)
Lemma mutate_lookup_ne (h : heap) ms c :
  Forall (λ mu, mu.1 ≠ c) ms → mutate h ms !! c = h !! c.
Proof.
  revert h. induction ms as [|[l f] ms IH]; intros h Hms; [done|].
  apply Forall_cons in Hms as [Hl Hms]. simpl in *.
  unfold mutate in *. simpl. rewrite IH by done.
  by apply lookup_alter_ne.
Qed.

Lemma contents_frame (d : gmap string loc) (h h' : heap) :
  (∀ name c, d !! name = Some c → h' !! c = h !! c) →
  contents d h' = contents d h.
Proof.
  intros H. apply map_eq. intros name. unfold contents.
  rewrite !lookup_omap. destruct (d !! name) as [c|] eqn:Hc; [simpl|done].
  by apply (H name).
Qed.

End Heap.

(** C8: with the tensors of the model in the heap (and, for the
    gradients, a gradient on every parameter), [get_model_weights] and
    [get_model_gradients] return; nothing that existed is changed; the
    dictionary has exactly the names of the parameters; each entry is a
    tensor that did not exist before the call, holding the entries of the
    data (of the gradient) of a parameter of that name; and whatever
    in-place operations later rewrite tensors of the model, the dictionary
    holds what it held. *)
Theorem snapshots_are_independent_copies (m : Torch.model)
    (h : gmap positive (list Q)) :
  (∀ l, l ∈ Torch.model_locs m → l ∈ dom h) →
  (∃ d h', Torch.get_model_weights m h = Some (d, h') ∧
     (∀ l, l ∈ dom h → h' !! l = h !! l) ∧
     (∀ name, is_Some (d !! name) ↔
              ∃ p, (name, p) ∈ Torch.named_parameters m) ∧
     (∀ name c, d !! name = Some c →
        (c ∉ dom h) ∧
        ∃ p t, (name, p) ∈ Torch.named_parameters m ∧
               h !! Torch.data p = Some t ∧ h' !! c = Some t) ∧
     (∀ ms, Forall (λ mu, mu.1 ∈ Torch.model_locs m) ms →
        Torch.contents d (Torch.mutate h' ms) = Torch.contents d h')) ∧
  ((∀ np, np ∈ Torch.named_parameters m → is_Some (Torch.grad np.2)) →
   ∃ d h', Torch.get_model_gradients m h = Some (d, h') ∧
     (∀ l, l ∈ dom h → h' !! l = h !! l) ∧
     (∀ name, is_Some (d !! name) ↔
              ∃ p, (name, p) ∈ Torch.named_parameters m) ∧
     (∀ name c, d !! name = Some c →
        (c ∉ dom h) ∧
        ∃ p g t, (name, p) ∈ Torch.named_parameters m ∧
                 Torch.grad p = Some g ∧
                 h !! g = Some t ∧ h' !! c = Some t) ∧
     (∀ ms, Forall (λ mu, mu.1 ∈ Torch.model_locs m) ms →
        Torch.contents d (Torch.mutate h' ms) = Torch.contents d h')).
Proof.
  intros Hwf.
  assert (Hlocs : ∀ np l, np ∈ Torch.named_parameters m →
                          l ∈ Torch.param_locs np.2 → l ∈ dom h).
  { intros np l Hnp Hl. apply Hwf. unfold Torch.model_locs.
    apply list_elem_of_In, in_flat_map. exists np.
    split; by apply list_elem_of_In. }
  assert (Hframe : ∀ (d : gmap string Torch.loc) (h' : gmap positive (list Q)),
    (∀ name c, d !! name = Some c → c ∉ dom h) →
    ∀ ms, Forall (λ mu, mu.1 ∈ Torch.model_locs m) ms →
          Torch.contents d (Torch.mutate h' ms) = Torch.contents d h').
  { intros d h' Hd ms Hms. apply contents_frame. intros name c Hc.
    apply mutate_lookup_ne. eapply Forall_impl; [exact Hms|].
    intros [l f] Hl Heq. simpl in *. subst l. by apply (Hd name c), Hwf. }
  split.
  - unfold Torch.get_model_weights.
    rewrite get_model_weights_from_clone_each.
    destruct (clone_each_is_Some (λ p, Some (Torch.data p))
                (Torch.named_parameters m) ∅ h) as [[d h'] Hrun].
    { intros np Hnp. eexists. split; [done|].
      apply (Hlocs np); [done|]. by left. }
    exists d, h'. split; [done|].
    apply clone_each_spec in Hrun as (Hkeep & Hnames & Hentries).
    2:{ intros np l Hnp [= <-]. apply (Hlocs np); [done|]. by left. }
    assert (Hd : ∀ name c, d !! name = Some c →
      (c ∉ dom h) ∧
      ∃ p t, (name, p) ∈ Torch.named_parameters m ∧
             h !! Torch.data p = Some t ∧ h' !! c = Some t).
    { intros name c Hc.
      apply Hentries in Hc as [Hc|(Hc & p & l & t & Hp & [= <-] & Hl & Ht)];
        [by rewrite lookup_empty in Hc|].
      split; [done|]. by exists p, t. }
    split_and!; [done| |done|].
    + intros name. rewrite Hnames, lookup_empty. split.
      * intros [[? [=]]|?]; done.
      * by right.
    + apply Hframe. intros name c Hc. by apply Hd in Hc as [? _].
  - intros Hgrads. unfold Torch.get_model_gradients.
    rewrite get_model_gradients_from_clone_each.
    assert (Hg : ∀ np l, np ∈ Torch.named_parameters m →
                         Torch.grad np.2 = Some l → l ∈ dom h).
    { intros np l Hnp Hl. apply (Hlocs np); [done|].
      unfold Torch.param_locs. rewrite Hl. right. by left. }
    destruct (clone_each_is_Some Torch.grad
                (Torch.named_parameters m) ∅ h) as [[d h'] Hrun].
    { intros np Hnp. destruct (Hgrads np Hnp) as [l Hl].
      exists l. split; [done|]. by apply (Hg np). }
    exists d, h'. split; [done|].
    apply clone_each_spec in Hrun as (Hkeep & Hnames & Hentries); [|done].
    assert (Hd : ∀ name c, d !! name = Some c →
      (c ∉ dom h) ∧
      ∃ p g t, (name, p) ∈ Torch.named_parameters m ∧
               Torch.grad p = Some g ∧ h !! g = Some t ∧ h' !! c = Some t).
    { intros name c Hc.
      apply Hentries in Hc as [Hc|(Hc & p & l & t & Hp & Hs & Hl & Ht)];
        [by rewrite lookup_empty in Hc|].
      split; [done|]. by exists p, l, t. }
    split_and!; [done| |done|].
    + intros name. rewrite Hnames, lookup_empty. split.
      * intros [[? [=]]|?]; done.
      * by right.
    + apply Hframe. intros name c Hc. by apply Hd in Hc as [? _].
Qed.

Section Decay.
Import Torch.

Lemma add_decay_Some wd w (h : heap) gl g d :
  grad w = Some gl → h !! gl = Some g → h !! data w = Some d →
  length g = length d →
  add_decay wd w h = Some (<[gl := t_add g (t_scale wd d)]> h).
Proof.
  intros Hgl Hg Hd Hlen. unfold add_decay. rewrite Hgl. simpl.
  rewrite Hg. simpl. rewrite Hd. simpl. by rewrite decide_True.
Qed.

Lemma decayed_cons pfx md (ms : model) :
  decayed ((pfx, md) :: ms)
  = match md with
    | Conv2d w _ | Linear w _ => [w]
    | OtherModule _ => []
    end ++ decayed ms.
Proof. done. Qed.

(** The loop of [wd_pre_step]: when the weights of the Conv2d and Linear
    modules have gradients of their shape, all distinct and none of them
    the data of such a weight, the loop runs; each of these gradients gets
    [weight_decay] times its weight added; nothing else changes. *)
Lemma wd_pre_step_modules_spec wd (m : model) (h : heap) :
  (∀ w, w ∈ decayed m →
        ∃ gl g d, grad w = Some gl ∧ h !! gl = Some g ∧
                  h !! data w = Some d ∧ length g = length d) →
  NoDup (decay_locs m) →
  (∀ w, w ∈ decayed m → data w ∉ decay_locs m) →
  ∃ h', wd_pre_step_modules wd m h = Some h' ∧
    (∀ w gl g d, w ∈ decayed m → grad w = Some gl →
       h !! gl = Some g → h !! data w = Some d →
       h' !! gl = Some (t_add g (t_scale wd d))) ∧
    (∀ l, l ∉ decay_locs m → h' !! l = h !! l).
Proof.
  revert h. induction m as [|[pfx md] ms IH]; intros h Hwf Hnd Hsep.
  - exists h. split; [done|]. split; [|done].
    intros w gl g d Hw. by apply elem_of_nil in Hw.
  - assert (Hother :
      decayed ((pfx, md) :: ms) = decayed ms →
      ∃ h', wd_pre_step_modules wd ms h = Some h' ∧
        (∀ w gl g d, w ∈ decayed ms → grad w = Some gl →
           h !! gl = Some g → h !! data w = Some d →
           h' !! gl = Some (t_add g (t_scale wd d))) ∧
        (∀ l, l ∉ decay_locs ms → h' !! l = h !! l)).
    { intros Heq. unfold decay_locs in *. rewrite Heq in *. by apply IH. }
    assert (Hdecay : ∀ w, decayed ((pfx, md) :: ms) = w :: decayed ms →
      ∃ h', (add_decay wd w h ≫= wd_pre_step_modules wd ms) = Some h' ∧
        (∀ w' gl g d, w' ∈ w :: decayed ms → grad w' = Some gl →
           h !! gl = Some g → h !! data w' = Some d →
           h' !! gl = Some (t_add g (t_scale wd d))) ∧
        (∀ l, l ∉ decay_locs ((pfx, md) :: ms) → h' !! l = h !! l)).
    { intros w Heq. unfold decay_locs in *. rewrite Heq in *.
      destruct (Hwf w) as (gl & g & d & Hgl & Hg & Hd & Hlen); [by left|].
      simpl in Hnd, Hsep. rewrite Hgl in Hnd, Hsep. simpl in Hnd, Hsep.
      apply NoDup_cons in Hnd as [Hgl_notin Hnd].
      rewrite (add_decay_Some wd w h gl g d) by done. simpl.
      set (h1 := <[gl := t_add g (t_scale wd d)]> h).
      assert (Hgrad_ne : ∀ w' gl', w' ∈ decayed ms → grad w' = Some gl' →
                                  gl' ≠ gl).
      { intros w' gl' Hw' Hgl' ->. apply Hgl_notin.
        apply list_elem_of_omap. by exists w'. }
      assert (Hdata_ne : ∀ w', w' ∈ w :: decayed ms → data w' ≠ gl).
      { intros w' Hw' Heq'. apply (Hsep w' Hw'). rewrite Heq'. by left. }
      destruct (IH h1) as (h' & Hrun & Heffect & Hframe).
      - intros w' Hw'.
        destruct (Hwf w') as (gl' & g' & d' & Hgl' & Hg' & Hd' & Hlen');
          [by right|].
        exists gl', g', d'. split_and!; try done.
        + unfold h1. rewrite lookup_insert_ne; [done|].
          intros Heq'. by apply (Hgrad_ne w' gl').
        + unfold h1. rewrite lookup_insert_ne; [done|].
          intros Heq'. apply (Hdata_ne w'); [by right|done].
      - done.
      - intros w' Hw' Hin. apply (Hsep w'); by right.
      - exists h'. split; [done|]. split.
        + intros w' gl' g' d' Hw' Hgl' Hg' Hd'.
          destruct (decide (gl' = gl)) as [->|Hne].
          * rewrite Hframe by done. unfold h1. rewrite lookup_insert_eq.
            apply elem_of_cons in Hw' as [->|Hw'].
            -- congruence.
            -- exfalso. by apply (Hgrad_ne w' gl).
          * apply elem_of_cons in Hw' as [->|Hw']; [congruence|].
            apply (Heffect w'); try done.
            -- unfold h1. by rewrite lookup_insert_ne.
            -- unfold h1. rewrite lookup_insert_ne; [done|].
               intros Heq'. apply (Hdata_ne w'); [by right|done].
        + intros l Hl. simpl in Hl. rewrite Hgl in Hl.
          apply not_elem_of_cons in Hl as [Hne Hl].
          rewrite Hframe by done. unfold h1. by apply lookup_insert_ne. }
    destruct md as [w b|w b|ps]; cbn [wd_pre_step_modules].
    + by apply Hdecay.
    + by apply Hdecay.
    + simpl. by apply Hother.
Qed.


Lemma elem_of_decayed (m : model) w :
  w ∈ decayed m ↔
  ∃ pfx b, (pfx, Conv2d w b) ∈ m ∨ (pfx, Linear w b) ∈ m.
Proof.
  induction m as [|[pfx md] ms IH].
  - split; [by intros ?%elem_of_nil|].
    intros (pfx & b & [?%elem_of_nil|?%elem_of_nil]); done.
  - rewrite decayed_cons, elem_of_app, IH. split.
    + intros [Hw|(pfx' & b & [H|H])].
      * destruct md as [w' b|w' b|ps].
        -- apply list_elem_of_singleton in Hw as ->.
           exists pfx, b. left. by left.
        -- apply list_elem_of_singleton in Hw as ->.
           exists pfx, b. right. by left.
        -- by apply elem_of_nil in Hw.
      * exists pfx', b. left. by right.
      * exists pfx', b. right. by right.
    + intros (pfx' & b & [H|H]); apply elem_of_cons in H as [[= -> <-]|H].
      * left. by left.
      * right. exists pfx', b. by left.
      * left. by left.
      * right. exists pfx', b. by right.
Qed.

End Decay.

(** In one pass, the weight decay directly follows the backward pass, and
    neither a clipping nor a push comes before it. *)
Lemma train_body_decay_order (a : Train.args) (i : Z) evs :
  Train.train_body a i = Some evs →
  ∃ pre post,
    evs = pre ++ [Train.Backward; Train.WeightDecay] ++ post ∧
    Forall (λ e, Train.is_clip e = false ∧ Train.is_push e = false
                 ∧ Train.is_weight_decay e = false) pre ∧
    Forall (λ e, Train.is_weight_decay e = false) post.
Proof.
  unfold Train.train_body.
  destruct (Train.current_accumulate_num a i) as [can|]; [simpl|done].
  destruct (Train.current_worker a i) as [w|]; [simpl|done].
  set (otl := if bool_decide (can = Train.batch_accumulate_num a - 1)
              then _ else _).
  destruct otl as [tl|] eqn:Htl; [simpl|done].
  intros [= <-].
  exists ((if bool_decide (can = 0) then [Train.Pull w; Train.ZeroGrad] else [])
          ++ [Train.Forward i; Train.LossDiv (Train.batch_accumulate_num a)]).
  exists ((if Qlt_le_dec (Train.grad_clip a) 1000
           then [Train.ClipGradNorm (Train.grad_clip a)] else [])
          ++ [Train.UpdateMeters i] ++ tl
          ++ (if Train.bar a then [Train.BarNext] else [])).
  split_and!.
  - unfold Train.compute_events. by rewrite <- !app_assoc.
  - destruct (bool_decide (can = 0)); repeat constructor.
  - rewrite !Forall_app. split_and!.
    + destruct (Qlt_le_dec _ _); repeat constructor.
    + repeat constructor.
    + subst otl. destruct (bool_decide _); [|by injection Htl as <-].
      destruct (Train.tau a i); [simpl in Htl|done].
      destruct (Py.floordiv _ _); [simpl in Htl|done].
      injection Htl as <-. repeat constructor.
    + destruct (Train.bar a); repeat constructor.
Qed.

(** C2, as the code has it: [wd_pre_step] adds [1e-4] times the weight to
    the gradient of the weight of every Conv2d and Linear module, in place,
    and to no other gradient (not to biases, not to the parameters of other
    modules); in every pass this comes right after the backward pass, before
    any clipping and before the push.  The weights of these modules are
    assumed to have gradients of their shape, all distinct tensors, none of
    them the data of such a weight. *)
Theorem weight_decay_on_conv_and_linear_weights (m : Torch.model)
    (h : gmap positive (list Q)) :
  (∀ w, w ∈ Torch.decayed m →
        ∃ gl g d, Torch.grad w = Some gl ∧ h !! gl = Some g ∧
                  h !! Torch.data w = Some d ∧ length g = length d) →
  NoDup (Torch.decay_locs m) →
  (∀ w, w ∈ Torch.decayed m → Torch.data w ∉ Torch.decay_locs m) →
  ∃ h', Torch.wd_pre_step m h = Some h' ∧
    (∀ pfx w b gl g d,
       (pfx, Torch.Conv2d w b) ∈ m ∨ (pfx, Torch.Linear w b) ∈ m →
       Torch.grad w = Some gl → h !! gl = Some g →
       h !! Torch.data w = Some d →
       h' !! gl = Some (Torch.t_add g (Torch.t_scale (1 # 10000) d))) ∧
    (∀ l, l ∉ Torch.decay_locs m → h' !! l = h !! l) ∧
    (∀ a i evs, Train.train_body a i = Some evs →
       ∃ pre post,
         evs = pre ++ [Train.Backward; Train.WeightDecay] ++ post ∧
         Forall (λ e, Train.is_clip e = false ∧ Train.is_push e = false
                      ∧ Train.is_weight_decay e = false) pre ∧
         Forall (λ e, Train.is_weight_decay e = false) post).
Proof.
  intros Hwf Hnd Hsep.
  destruct (wd_pre_step_modules_spec Torch.weight_decay_default m h
              Hwf Hnd Hsep) as (h' & Hrun & Heffect & Hframe).
  exists h'. split; [done|]. split_and!.
  - intros pfx w b gl g d Hw. apply Heffect.
    apply elem_of_decayed. by exists pfx, b.
  - done.
  - apply train_body_decay_order.
Qed.

Lemma weight_decay_on_conv_and_linear_weights_witness :
  ∃ h', Torch.wd_pre_step Torch.toy_model Torch.toy_heap = Some h' ∧
    (∀ pfx w b gl g d,
       (pfx, Torch.Conv2d w b) ∈ Torch.toy_model
       ∨ (pfx, Torch.Linear w b) ∈ Torch.toy_model →
       Torch.grad w = Some gl → Torch.toy_heap !! gl = Some g →
       Torch.toy_heap !! Torch.data w = Some d →
       h' !! gl = Some (Torch.t_add g (Torch.t_scale (1 # 10000) d))) ∧
    (∀ l, l ∉ Torch.decay_locs Torch.toy_model →
          h' !! l = Torch.toy_heap !! l) ∧
    (∀ a i evs, Train.train_body a i = Some evs →
       ∃ pre post,
         evs = pre ++ [Train.Backward; Train.WeightDecay] ++ post ∧
         Forall (λ e, Train.is_clip e = false ∧ Train.is_push e = false
                      ∧ Train.is_weight_decay e = false) pre ∧
         Forall (λ e, Train.is_weight_decay e = false) post).
Proof.
  apply (weight_decay_on_conv_and_linear_weights
           Torch.toy_model Torch.toy_heap).
  - intros w Hw. apply list_elem_of_singleton in Hw. subst w.
    exists 2%positive, [1; 1]%Q, [2; 4]%Q. repeat split; reflexivity.
  - apply NoDup_singleton.
  - intros w Hw. apply list_elem_of_singleton in Hw. subst w.
    intros Hin. apply list_elem_of_singleton in Hin. discriminate Hin.
Defined.

(** C2 as stated fails: the bias of the linear layer of the toy model is a
    parameter with a gradient, and [wd_pre_step] leaves that gradient at 0
    where the claim wants [0 + 1e-4 * 1]. *)
Lemma bias_gradient_gets_no_decay :
  ∃ h', Torch.wd_pre_step Torch.toy_model Torch.toy_heap = Some h' ∧
    ¬ (∀ name p gl g d,
         (name, p) ∈ Torch.named_parameters Torch.toy_model →
         Torch.grad p = Some gl → Torch.toy_heap !! gl = Some g →
         Torch.toy_heap !! Torch.data p = Some d →
         ∃ g', h' !! gl = Some g' ∧
               Forall2 Qeq g'
                 (Torch.t_add g
                    (Torch.t_scale Torch.weight_decay_default d))).
Proof.
  eexists. split; [vm_compute; reflexivity|].
  intros H.
  destruct (H "fc.bias"%string Torch.fc_bias 4%positive [0]%Q [1]%Q)
    as (g' & Hg' & Heq); try reflexivity.
  - right. left.
  - vm_compute in Hg'. injection Hg' as <-.
    apply Forall2_cons in Heq as [Heq _]. vm_compute in Heq. discriminate.
Qed.

(** *** The pre-step and the snapshots on the toy model *)

(** Only the gradient of the linear layer's weight changes. *)
Example wd_pre_step_toy :
  ∃ h', Torch.wd_pre_step Torch.toy_model Torch.toy_heap = Some h' ∧
    h' !! 2%positive
    = Some [1 + (1 # 10000) * 2; 1 + (1 # 10000) * 4]%Q ∧
    h' !! 4%positive = Some [0]%Q ∧
    h' !! 6%positive = Some [0]%Q.
Proof. eexists. split_and!; vm_compute; reflexivity. Qed.

(** Two linear layers that share one weight tensor: the decay is added
    once per module, twice in all. *)
Example wd_pre_step_tied_weights :
  ∃ h', Torch.wd_pre_step
          [("a."%string, Torch.Linear Torch.fc_weight None);
           ("b."%string, Torch.Linear Torch.fc_weight None)]
          Torch.toy_heap = Some h' ∧
    h' !! 2%positive
    = Some [1 + (1 # 10000) * 2 + (1 # 10000) * 2;
            1 + (1 # 10000) * 4 + (1 # 10000) * 4]%Q.
Proof. eexists. split; vm_compute; reflexivity. Qed.

(** A weight without a gradient: [None] has no [add_]. *)
Example wd_pre_step_no_gradient :
  Torch.wd_pre_step
    [("fc."%string, Torch.Linear (Torch.Param 1 None) None)] Torch.toy_heap
  = None.
Proof. reflexivity. Qed.

(** The gradients are snapshot, then [zero_grad] and a further decay step
    rewrite the gradients of the model in place: the snapshot still holds
    the gradients of the time it was taken. *)
Example get_model_gradients_then_zero_grad :
  ∃ d h', Torch.get_model_gradients Torch.toy_model Torch.toy_heap
          = Some (d, h') ∧
    map_to_list (Torch.contents d h')
    = [("fc.weight"%string, [1; 1]%Q); ("fc.bias"%string, [0]%Q);
       ("bn.weight"%string, [0]%Q)] ∧
    Torch.mutate h' [(2%positive, λ t, (λ _, 0%Q) <$> t)] !! 2%positive
    = Some [0; 0]%Q ∧
    map_to_list
      (Torch.contents d
         (Torch.mutate h' [(2%positive, λ t, (λ _, 0%Q) <$> t)]))
    = [("fc.weight"%string, [1; 1]%Q); ("fc.bias"%string, [0]%Q);
       ("bn.weight"%string, [0]%Q)].
Proof. do 2 eexists. split_and!; vm_compute; reflexivity. Qed.

Lemma snapshots_are_independent_copies_witness :
  (∃ d h', Torch.get_model_weights Torch.toy_model Torch.toy_heap
           = Some (d, h') ∧
     (∀ name c, d !! name = Some c → c ∉ dom Torch.toy_heap) ∧
     (∀ ms, Forall (λ mu, mu.1 ∈ Torch.model_locs Torch.toy_model) ms →
        Torch.contents d (Torch.mutate h' ms) = Torch.contents d h')) ∧
  (∃ d h', Torch.get_model_gradients Torch.toy_model Torch.toy_heap
           = Some (d, h') ∧
     (∀ name c, d !! name = Some c → c ∉ dom Torch.toy_heap) ∧
     (∀ ms, Forall (λ mu, mu.1 ∈ Torch.model_locs Torch.toy_model) ms →
        Torch.contents d (Torch.mutate h' ms) = Torch.contents d h')).
Proof.
  destruct (snapshots_are_independent_copies Torch.toy_model Torch.toy_heap)
    as [Hweights Hgradients].
  { intros l Hl. apply elem_of_dom.
    change (Torch.model_locs Torch.toy_model)
      with [1; 2; 3; 4; 5; 6]%positive in Hl.
    rewrite !elem_of_cons, elem_of_nil in Hl.
    destruct Hl as [->|[->|[->|[->|[->|[->|[]]]]]]]; vm_compute; eauto. }
  split.
  - destruct Hweights as (d & h' & Hrun & _ & _ & Hnew & Hframe).
    exists d, h'. split; [exact Hrun|]. split; [|exact Hframe].
    intros name c Hc. destruct (Hnew name c Hc) as [Hfresh _]. exact Hfresh.
  - destruct Hgradients as (d & h' & Hrun & _ & _ & Hnew & Hframe).
    { intros np Hnp.
      change (Torch.named_parameters Torch.toy_model)
        with [("fc.weight"%string, Torch.fc_weight);
              ("fc.bias"%string, Torch.fc_bias);
              ("bn.weight"%string, Torch.bn_weight)] in Hnp.
      rewrite !elem_of_cons, elem_of_nil in Hnp.
      destruct Hnp as [->|[->|[->|[]]]]; simpl; eauto. }
    exists d, h'. split; [exact Hrun|]. split; [|exact Hframe].
    intros name c Hc. destruct (Hnew name c Hc) as [Hfresh _]. exact Hfresh.
Defined.

(** ** [AverageMeter] *)

Section Meter.
Import AverageMeter.
Context {F : Type} (A : Num.arith F).



End Meter.

Section MeterExact.
Import AverageMeter.



End MeterExact.




Example average_meter_run :
  AverageMeter.updates Num.exact (AverageMeter.reset Num.exact)
    AverageMeter.sample_updates
  = Some (AverageMeter.Meter ((0 + (3 # 2) * 4 + (1 # 2) * 12) / 16)%Q
            (0 + (3 # 2) * 4 + (1 # 2) * 12)%Q 16).
Proof. reflexivity. Qed.

Example average_meter_zero_count {F} (A : Num.arith F) (val : F) :
  AverageMeter.update A (AverageMeter.reset A) val 0 = None.
Proof. reflexivity. Qed.

(** ** The recorded loss *)



(** The loss 3.875 as a binary32 number. *)
Example loss_3875_valid :
  valid_binary 24 128 (S754_finite false 16252928 (-22)) = true ∧
  binary_normalize 24 128 31 (-3) false = S754_finite false 16252928 (-22).
Proof. split; reflexivity. Qed.

(** *** Binary32: dividing and multiplying by 1.0 *)









(** The same loss under the other two readings of the two lines. *)
Example recorded_loss_other_readings :
  Loss.recorded_loss_reciprocal Loss.binary32
    (S754_finite false 16252928 (-22)) 7
  = S754_finite false 16252929 (-22) ∧
  SFeqb (Loss.recorded_loss_python_float
           (S754_finite false 16252928 (-22)) 7)
        (S754_finite false 16252928 (-22)) = false ∧
  SFeqb (Loss.recorded_loss Loss.binary64
           (S754_finite false 8162774324609024 (-51)) 7)
        (S754_finite false 8162774324609024 (-51)) = false.
Proof. split_and!; vm_compute; reflexivity. Qed.

(** ** Resuming from a checkpoint *)

Lemma resume_found {Server Statistics Model StateDict}
    (load : Model → StateDict → option Model) path files
    (r : Main.run Server Statistics Model) ck :
  path ≠ ""%string →
  files (path +:+ "/checkpoint.pth.tar")%string = Some ck →
  Main.resume load path files r
  = m ← load (Main.model r) (Main.ck_state_dict ck);
    Some (Main.Run (Main.ck_epoch ck) (Main.ck_server ck)
            (Main.ck_val_stats ck) (Main.ck_train_stats ck) m).
Proof.
  intros Hpath Hck. unfold Main.resume.
  rewrite decide_False by done. by rewrite Hck.
Qed.

(** C6 as stated fails: the run is configured for four asynchronous
    workers, the checkpoint holds a server of eight synchronous workers;
    the resume block returns normally and the run continues with the
    server of the checkpoint. *)
Lemma resume_accepts_other_configuration :
  ∃ r, Main.resume Main.strict_load_state_dict "run" Main.toy_files
         Main.toy_run = Some r ∧
    Main.server r = Main.ServerConfig 8 false ∧
    Main.server Main.toy_run = Main.ServerConfig 4 true ∧
    Main.workers_num (Main.server r)
    ≠ Main.workers_num (Main.server Main.toy_run) ∧
    Main.asynchronous (Main.server r)
    ≠ Main.asynchronous (Main.server Main.toy_run).
Proof.
  eexists. split; [vm_compute; reflexivity|]. simpl. split_and!; done.
Qed.

(** Without a path, or without a checkpoint file under the path, the run
    is left as configured. *)
Lemma resume_without_checkpoint {Server Statistics Model StateDict}
    (load : Model → StateDict → option Model) path files
    (r : Main.run Server Statistics Model) :
  path = ""%string ∨ files (path +:+ "/checkpoint.pth.tar")%string = None →
  Main.resume load path files r = Some r.
Proof.
  unfold Main.resume. intros [->|Hnone]; [done|].
  rewrite Hnone. by destruct (decide _).
Qed.

(** A state dictionary [model.load_state_dict] refuses ends [main]. *)
Lemma resume_load_refused {Server Statistics Model StateDict}
    (load : Model → StateDict → option Model) path files
    (r : Main.run Server Statistics Model) ck :
  path ≠ ""%string →
  files (path +:+ "/checkpoint.pth.tar")%string = Some ck →
  load (Main.model r) (Main.ck_state_dict ck) = None →
  Main.resume load path files r = None.
Proof.
  intros Hpath Hck Hload. rewrite (resume_found load path files r ck) by done.
  by rewrite Hload.
Qed.

(** C6, as the code has it: when the checkpoint file is there and
    [model.load_state_dict] takes its state dictionary, the resume block
    returns with the epoch, the server and both statistics of the
    checkpoint, whatever server and statistics the run was configured with:
    nothing but the state dictionary is checked against the run. *)
Theorem resume_takes_checkpoint_as_it_is {Server Statistics Model StateDict}
    (load : Model → StateDict → option Model) (path : string)
    (files : string → option (Main.checkpoint Server Statistics StateDict))
    (r : Main.run Server Statistics Model)
    (ck : Main.checkpoint Server Statistics StateDict) (m : Model) :
  path ≠ ""%string →
  files (path +:+ "/checkpoint.pth.tar")%string = Some ck →
  load (Main.model r) (Main.ck_state_dict ck) = Some m →
  Main.resume load path files r
  = Some (Main.Run (Main.ck_epoch ck) (Main.ck_server ck)
            (Main.ck_val_stats ck) (Main.ck_train_stats ck) m).
Proof.
  intros Hpath Hck Hload. rewrite (resume_found load path files r ck) by done.
  by rewrite Hload.
Qed.

Lemma resume_takes_checkpoint_as_it_is_witness :
  Main.resume Main.strict_load_state_dict "run" Main.toy_files Main.toy_run
  = Some (Main.Run 7 (Main.ServerConfig 8 false) [3%Q] [4%Q]
            {["module.fc.weight"%string := [1; 2]%Q]}).
Proof.
  apply (resume_takes_checkpoint_as_it_is Main.strict_load_state_dict "run"
           Main.toy_files Main.toy_run Main.toy_checkpoint).
  - discriminate.
  - reflexivity.
  - vm_compute. reflexivity.
Defined.

(** Strict loading refuses other names and other shapes. *)
Lemma strict_load_state_dict_Some m sd m' :
  Main.strict_load_state_dict m sd = Some m' →
  m' = sd ∧ dom sd = dom m ∧
  ∀ name t, m !! name = Some t →
            ∃ t', sd !! name = Some t' ∧ length t' = length t.
Proof.
  unfold Main.strict_load_state_dict.
  destruct (decide _) as [Heq|]; [|done]. intros [= <-].
  split; [done|]. split.
  - apply (f_equal dom) in Heq. by rewrite !dom_fmap_L in Heq.
  - intros name t Ht.
    assert (Hl : (length <$> sd) !! name = (length <$> m) !! name)
      by by rewrite Heq.
    rewrite !lookup_fmap, Ht in Hl. simpl in Hl.
    destruct (sd !! name) as [t'|]; [|done]. injection Hl as Hl. by exists t'.
Qed.

(** * Further properties *)

(** ** The schedule over a whole run *)







Section RunCalls.
Import Train Calls.
Variable a : args.
Local Abbreviation b := (batch_accumulate_num a).
Local Abbreviation W := (workers_number a).

Lemma server_calls_app l1 l2 :
  server_calls (l1 ++ l2) = server_calls l1 ++ server_calls l2.
Proof. apply List.filter_app. Qed.

Lemma server_calls_none l :
  Forall (λ e, is_server_call e = false) l → server_calls l = [].
Proof.
  induction 1 as [|e l He _ IH]; [done|].
  unfold server_calls in *. simpl. by rewrite He.
Qed.

Lemma server_calls_bar : server_calls (if bar a then [BarNext] else []) = [].
Proof. by destruct (bar a). Qed.

Lemma count_server_calls p l :
  (∀ e, p e = true → is_server_call e = true) →
  count p (server_calls l) = count p l.
Proof.
  intros Hp. induction l as [|e l IH]; [done|].
  unfold server_calls in *. simpl. rewrite (count_cons p e l).
  destruct (is_server_call e) eqn:He.
  - by rewrite count_cons, IH.
  - rewrite IH. destruct (p e) eqn:Hpe; [|done].
    apply Hp in Hpe. congruence.
Qed.

(** A complete group: its server calls and its backward passes. *)
Lemma train_group_calls g :
  0 < b → 0 < W →
  ∃ evs, train_group a g = Some evs ∧
    server_calls evs = group_calls a g ∧
    count is_backward evs = Z.to_nat b.
Proof.
  intros Hb HW.
  destruct (train_group_shape a g Hb HW) as (mid & Hrun & Hmid & _ & Hbw).
  eexists. split; [exact Hrun|]. split.
  - rewrite !server_calls_app, (server_calls_none mid Hmid), server_calls_bar.
    done.
  - rewrite !count_app, Hbw, count_bar by done. 
    unfold count. simpl. lia.
Qed.

(** [q] complete groups in a row, from group [g]. *)
Lemma train_range_groups g (q : nat) :
  0 < b → 0 < W →
  ∃ evs, train_range a (g * b) (q * Z.to_nat b) = Some evs ∧
    server_calls evs = flat_map (group_calls a) (seqZ g (Z.of_nat q)) ∧
    count is_backward evs = (q * Z.to_nat b)%nat.
Proof.
  intros Hb HW. revert g. induction q as [|q IH]; intros g.
  - exists []. done.
  - destruct (train_group_calls g Hb HW) as (e1 & Hrun1 & Hcalls1 & Hbw1).
    destruct (IH (g + 1)) as (e2 & Hrun2 & Hcalls2 & Hbw2).
    exists (e1 ++ e2).
    change (S q * Z.to_nat b)%nat with (Z.to_nat b + q * Z.to_nat b)%nat.
    rewrite train_range_app. unfold train_group in Hrun1. rewrite Hrun1.
    cbn [mbind option_bind].
    replace (g * b + Z.of_nat (Z.to_nat b)) with ((g + 1) * b) by lia.
    rewrite Hrun2. cbn [mbind option_bind]. split; [done|]. split.
    + rewrite server_calls_app, Hcalls1, Hcalls2.
      rewrite (seqZ_cons g (Z.of_nat (S q))) by lia. simpl.
      replace (Z.pred (Z.of_nat (S q))) with (Z.of_nat q) by lia.
      replace (Z.succ g) with (g + 1) by lia. done.
    + rewrite count_app, Hbw1, Hbw2. lia.
Qed.

(** The batches of a group the loader cuts short: a pull, no push. *)
Lemma train_range_partial g (r : nat) :
  0 < b → 0 < W → (0 < r)%nat → Z.of_nat r < b →
  ∃ evs, train_range a (g * b) r = Some evs ∧
    server_calls evs = [Pull (g `mod` W)] ∧
    count is_backward evs = r.
Proof.
  intros Hb HW Hr Hrb. destruct r as [|r]; [lia|].
  cbn [train_range].
  replace (train_body a (g * b)) with (train_body a (g * b + 0))
    by (f_equal; lia).
  rewrite train_body_at by lia.
  rewrite decide_True by done. rewrite decide_False by lia.
  cbn [mbind option_bind].
  rewrite train_range_inner by lia. cbn [mbind option_bind].
  eexists. split; [done|]. split.
  - rewrite !server_calls_app.
    rewrite (server_calls_none _ (compute_events_no_server_call a _)).
    rewrite (server_calls_none _ (inner_passes_no_server_call a _ _)).
    rewrite server_calls_bar. done.
  - rewrite !count_app, count_compute_events_backward.
    rewrite (count_inner_passes a is_backward) by
      (done || apply count_compute_events_backward).
    rewrite count_bar by done. unfold count. simpl. lia.
Qed.

(** A run: complete groups, then what the end of the loader leaves of the
    last one. *)
Lemma train_run_calls (n : nat) :
  0 < b → 0 < W →
  ∃ full rest,
    train a (Z.to_nat (Z.of_nat n `div` b) * Z.to_nat b) = Some full ∧
    train a n = Some (full ++ rest) ∧
    server_calls full
    = flat_map (group_calls a) (seqZ 0 (Z.of_nat n `div` b)) ∧
    server_calls rest
    = (if decide (Z.of_nat n `mod` b = 0) then []
       else [Pull ((Z.of_nat n `div` b) `mod` W)]) ∧
    count is_backward rest = Z.to_nat (Z.of_nat n `mod` b).
Proof.
  intros Hb HW.
  pose proof (Z.div_mod (Z.of_nat n) b ltac:(lia)) as Hn.
  pose proof (Z.mod_pos_bound (Z.of_nat n) b Hb) as Hmod.
  assert (0 ≤ Z.of_nat n `div` b) as Hdiv by (apply Z.div_pos; lia).
  set (q := Z.to_nat (Z.of_nat n `div` b)).
  set (r := Z.to_nat (Z.of_nat n `mod` b)).
  assert (Hsplit : n = (q * Z.to_nat b + r)%nat) by (unfold q, r; nia).
  destruct (train_range_groups 0 q Hb HW) as (full & Hfull & Hcalls & _).
  rewrite Z.mul_0_l in Hfull.
  replace (Z.of_nat q) with (Z.of_nat n `div` b) in Hcalls
    by (unfold q; lia).
  unfold train.
  replace (train_range a 0 n)
    with (train_range a 0 (q * Z.to_nat b + r)) by (f_equal; lia).
  rewrite train_range_app, Hfull.
  cbn [mbind option_bind].
  replace (0 + Z.of_nat (q * Z.to_nat b)) with (Z.of_nat n `div` b * b)
    by (unfold q; nia).
  destruct (decide (Z.of_nat n `mod` b = 0)) as [H0|H0].
  - exists full, []. replace r with 0%nat by (unfold r; lia).
    cbn [train_range mbind option_bind]. split_and!; try done.
  - destruct (train_range_partial (Z.of_nat n `div` b) r Hb HW)
      as (rest & Hrest & Hcalls' & Hbw); [unfold r; lia..|].
    exists full, rest. rewrite Hrest. cbn [mbind option_bind].
    split_and!; done.
Qed.

End RunCalls.

(** X2: over a run of [n] batches, what the server and the statistics see
    is, group after group from 0 to [n // batch_accumulate_num - 1], the
    pull of worker [g % workers_number], the snapshot of the gradients,
    their push with [iteration = g] and [tau = (g - worker) /
    workers_number + 1], and the step norm; a last group the loader cuts
    short adds its pull and nothing else. *)
Theorem server_calls_of_run (a : Train.args) (n : nat) :
  0 < Train.batch_accumulate_num a → 0 < Train.workers_number a →
  ∃ evs, Train.train a n = Some evs ∧
    Calls.server_calls evs
    = flat_map (Calls.group_calls a)
        (seqZ 0 (Z.of_nat n `div` Train.batch_accumulate_num a))
      ++ (if decide (Z.of_nat n `mod` Train.batch_accumulate_num a = 0)
          then []
          else [Train.Pull ((Z.of_nat n `div` Train.batch_accumulate_num a)
                            `mod` Train.workers_number a)]).
Proof.
  intros Hb HW.
  destruct (train_run_calls a n Hb HW)
    as (full & rest & _ & Hrun & Hfull & Hrest & _).
  exists (full ++ rest). split; [done|].
  by rewrite server_calls_app, Hfull, Hrest.
Qed.

Lemma server_calls_of_run_witness :
  ∃ evs, Train.train (Train.Args 0 2 1000 2 false) 5 = Some evs ∧
    Calls.server_calls evs
    = [Train.Pull 0; Train.GetGradients 1;
       Train.Push 0 1 0 (inject_Z (0 - 0) / inject_Z 2 + 1)%Q 0;
       Train.SaveStepNorm 1;
       Train.Pull 1; Train.GetGradients 3;
       Train.Push 1 3 0 (inject_Z (1 - 1) / inject_Z 2 + 1)%Q 1;
       Train.SaveStepNorm 3;
       Train.Pull 0].
Proof.
  apply (server_calls_of_run (Train.Args 0 2 1000 2 false) 5); simpl; lia.
Defined.

Lemma count_group_calls (a : Train.args) p (l : list Z) k :
  (∀ g, Train.count p (Calls.group_calls a g) = k) →
  Train.count p (flat_map (Calls.group_calls a) l) = (length l * k)%nat.
Proof.
  intros Hk. induction l as [|g l IH]; [done|].
  cbn [flat_map]. rewrite count_app, Hk, IH. simpl. lia.
Qed.

Lemma ceil_div (n b : Z) :
  0 < b →
  (n + b - 1) `div` b = n `div` b + (if decide (n `mod` b = 0) then 0 else 1).
Proof.
  intros Hb. pose proof (Z.div_mod n b ltac:(lia)) as Hn.
  pose proof (Z.mod_pos_bound n b Hb) as Hm.
  destruct (decide _) as [H0|H0]; symmetry.
  - apply (Z.div_unique _ _ _ (b - 1)); lia.
  - apply (Z.div_unique _ _ _ (n `mod` b - 1)); lia.
Qed.

(** X3: a run of [n] batches pushes [n // batch_accumulate_num] times and
    pulls once more than that when [n] is not a multiple of
    [batch_accumulate_num]: the run is the run over the complete groups
    followed by [n % batch_accumulate_num] passes whose backward passes
    are followed by no push, so the gradients they accumulate never reach
    the server. *)
Theorem pushes_of_run (a : Train.args) (n : nat) :
  0 < Train.batch_accumulate_num a → 0 < Train.workers_number a →
  ∃ full rest,
    Train.train a (Z.to_nat (Z.of_nat n `div` Train.batch_accumulate_num a)
                   * Z.to_nat (Train.batch_accumulate_num a)) = Some full ∧
    Train.train a n = Some (full ++ rest) ∧
    Train.count Train.is_push (full ++ rest)
    = Z.to_nat (Z.of_nat n `div` Train.batch_accumulate_num a) ∧
    Train.count Train.is_pull (full ++ rest)
    = Z.to_nat ((Z.of_nat n + Train.batch_accumulate_num a - 1)
                `div` Train.batch_accumulate_num a) ∧
    Train.count Train.is_push rest = 0%nat ∧
    Train.count Train.is_backward rest
    = Z.to_nat (Z.of_nat n `mod` Train.batch_accumulate_num a).
Proof.
  intros Hb HW.
  destruct (train_run_calls a n Hb HW)
    as (full & rest & Hfull & Hrun & Hcfull & Hcrest & Hbw).
  exists full, rest. split; [done|]. split; [done|].
  assert (0 ≤ Z.of_nat n `div` Train.batch_accumulate_num a)
    by (apply Z.div_pos; lia).
  assert (Hpush_rest : Train.count Train.is_push rest = 0%nat).
  { rewrite <- (count_server_calls Train.is_push rest) by (by intros []).
    rewrite Hcrest. by destruct (decide _). }
  assert (Hpush_full : Train.count Train.is_push full
                       = Z.to_nat (Z.of_nat n `div` Train.batch_accumulate_num a)).
  { rewrite <- (count_server_calls Train.is_push full) by (by intros []).
    rewrite Hcfull, (count_group_calls a Train.is_push _ 1) by done.
    rewrite length_seqZ. lia. }
  split_and!; try done.
  - rewrite count_app, Hpush_full, Hpush_rest. lia.
  - rewrite count_app.
    rewrite <- (count_server_calls Train.is_pull full) by (by intros []).
    rewrite <- (count_server_calls Train.is_pull rest) by (by intros []).
    rewrite Hcfull, Hcrest, (count_group_calls a Train.is_pull _ 1) by done.
    rewrite length_seqZ, ceil_div by done.
    destruct (decide _); unfold Train.count; simpl; lia.
Qed.

Lemma pushes_of_run_witness :
  ∃ full rest,
    Train.train (Train.Args 0 2 1000 2 false) 4 = Some full ∧
    Train.train (Train.Args 0 2 1000 2 false) 5 = Some (full ++ rest) ∧
    Train.count Train.is_push (full ++ rest) = 2%nat ∧
    Train.count Train.is_pull (full ++ rest) = 3%nat ∧
    Train.count Train.is_push rest = 0%nat ∧
    Train.count Train.is_backward rest = 1%nat.
Proof.
  apply (pushes_of_run (Train.Args 0 2 1000 2 false) 5); simpl; lia.
Defined.

(** X4: [tau] is 1 exactly during the first round over the workers (the
    first [batch_accumulate_num * workers_number] batches of the epoch),
    and it grows by 1 with every further round: it counts rounds of the
    loop, whatever the server has done in between. *)
Theorem tau_counts_rounds (a : Train.args) (i : Z) :
  0 < Train.batch_accumulate_num a → 0 < Train.workers_number a → 0 ≤ i →
  ∃ t t', Train.tau a i = Some t ∧
    Train.tau a (i + Train.batch_accumulate_num a * Train.workers_number a)
    = Some t' ∧
    (t == inject_Z (i `div` (Train.batch_accumulate_num a
                             * Train.workers_number a)) + 1)%Q ∧
    ((t == 1)%Q ↔
     i < Train.batch_accumulate_num a * Train.workers_number a) ∧
    (t' == t + 1)%Q.
Proof.
  intros Hb HW Hi.
  assert (Hround : ∀ j, 0 ≤ j →
    ∃ t, Train.tau a j = Some t ∧
         (t == inject_Z (j `div` (Train.batch_accumulate_num a
                                  * Train.workers_number a)) + 1)%Q).
  { intros j Hj. eexists. split; [apply tau_Some; lia|].
    etransitivity; [apply tau_value; lia|].
    by rewrite Z.div_div by lia. }
  destruct (Hround i Hi) as (t & Ht & Hteq).
  destruct (Hround (i + Train.batch_accumulate_num a * Train.workers_number a))
    as (t' & Ht' & Hteq'); [nia|].
  exists t, t'. split; [done|]. split; [done|]. split; [done|].
  assert (0 < Train.batch_accumulate_num a * Train.workers_number a) by nia.
  assert (0 ≤ i `div` (Train.batch_accumulate_num a * Train.workers_number a))
    by (apply Z.div_pos; lia).
  split.
  - rewrite Hteq. split.
    + intros Heq.
      assert (Hz : i `div` (Train.batch_accumulate_num a
                            * Train.workers_number a) = 0).
      { unfold Qeq in Heq. simpl in Heq. lia. }
      apply Z.div_small_iff in Hz; lia.
    + intros Hlt. rewrite Z.div_small by lia. reflexivity.
  - rewrite Hteq', Hteq.
    replace (i + Train.batch_accumulate_num a * Train.workers_number a)
      with (i + 1 * (Train.batch_accumulate_num a * Train.workers_number a))
      by lia.
    rewrite Z.div_add by lia. rewrite inject_Z_plus. ring.
Qed.

Lemma tau_counts_rounds_witness :
  ∃ t t', Train.tau (Train.Args 0 2 1000 2 false) 5 = Some t ∧
    Train.tau (Train.Args 0 2 1000 2 false) 9 = Some t' ∧
    (t == 2)%Q ∧ ¬ (t == 1)%Q ∧ (t' == 3)%Q.
Proof.
  destruct (tau_counts_rounds (Train.Args 0 2 1000 2 false) 5)
    as (t & t' & Ht & Ht' & Hround & Hone & Hnext); [simpl; lia..|].
  exists t, t'. split; [exact Ht|]. split; [exact Ht'|].
  split; [exact Hround|]. split.
  - intros H1. apply Hone in H1. simpl in H1. lia.
  - rewrite Hnext, Hround. reflexivity.
Defined.

(** ** More on [AverageMeter] *)

Section MeterMore.
Import AverageMeter.




End MeterMore.



Section MeterOrder.
Import AverageMeter.




End MeterOrder.






(** ** What [main] derives from its arguments *)

(** X9: [main] never hands [train] a [batch_accumulate_num] below 1; it
    is above 1 only for an ImageNet ResNet with a batch of at least 512
    (from 257 to 511 the quotient by 256 is still 1); so under [main] the
    [i % batch_accumulate_num] of [train] divides by zero for no batch and
    lies in [0, batch_accumulate_num).  Computing the number of iterations
    raises exactly when [batch_size] is 0. *)
Theorem main_batch_accumulate_num (batch_size : Z) (dataset model : string)
    (samples : Z) (a : Train.args) :
  Train.batch_accumulate_num a
  = Epochs.batch_accumulate_num batch_size dataset model →
  1 ≤ Epochs.batch_accumulate_num batch_size dataset model ∧
  (1 < Epochs.batch_accumulate_num batch_size dataset model ↔
   512 ≤ batch_size ∧ dataset = "imagenet"%string ∧ model = "resnet"%string) ∧
  (Epochs.iterations_per_epoch batch_size dataset model samples = None ↔
   batch_size = 0) ∧
  (∀ i, ∃ c, Train.current_accumulate_num a i = Some c ∧
             0 ≤ c < Train.batch_accumulate_num a).
Proof.
  intros Ha.
  assert (Hb : 1 ≤ Epochs.batch_accumulate_num batch_size dataset model).
  { unfold Epochs.batch_accumulate_num. destruct (decide _) as [[H _]|_]; [|lia].
    apply Z.div_le_lower_bound; lia. }
  assert (Hgt : 1 < Epochs.batch_accumulate_num batch_size dataset model ↔
    512 ≤ batch_size ∧ dataset = "imagenet"%string ∧ model = "resnet"%string).
  { unfold Epochs.batch_accumulate_num.
    destruct (decide _) as [(H & Hd & Hm)|Hn].
    - split.
      + intros Hlt. split; [|done].
        destruct (decide (512 ≤ batch_size)); [done|].
        rewrite (Z.div_unique batch_size 256 1 (batch_size - 256)) in Hlt; lia.
      + intros (H512 & _). 
        assert (2 ≤ batch_size `div` 256); [|lia].
        apply Z.div_le_lower_bound; lia.
    - split; [lia|]. intros (H512 & Hd & Hm). destruct Hn. split; [lia|done]. }
  split; [done|]. split; [done|]. split.
  - unfold Epochs.iterations_per_epoch, Py.floordiv.
    destruct (decide (dataset = "imagenet"%string)) as [Hd|Hd].
    + destruct (decide (1 < _)) as [H1|H1].
      * simpl. split; [done|]. intros ->. apply Hgt in H1. lia.
      * by destruct (decide (batch_size = 0)).
    + by destruct (decide (batch_size = 0)).
  - intros i. unfold Train.current_accumulate_num, Py.mod_.
    rewrite decide_False by lia. eexists. split; [done|].
    apply Z.mod_pos_bound. lia.
Qed.

Lemma main_batch_accumulate_num_witness :
  Epochs.batch_accumulate_num 511 "imagenet" "resnet" = 1 ∧
  Epochs.batch_accumulate_num 1024 "imagenet" "resnet" = 4 ∧
  ¬ (1 < Epochs.batch_accumulate_num 511 "imagenet" "resnet") ∧
  ∃ c, Train.current_accumulate_num (Train.Args 0 2 1000 4 false) 6 = Some c ∧
       0 ≤ c < 4.
Proof.
  destruct (main_batch_accumulate_num 511 "imagenet" "resnet" 1000
              (Train.Args 0 2 1000 1 false)) as (_ & Hgt & _ & _);
    [reflexivity|].
  destruct (main_batch_accumulate_num 1024 "imagenet" "resnet" 1000
              (Train.Args 0 2 1000 4 false)) as (_ & _ & _ & Hrun);
    [reflexivity|].
  split; [reflexivity|]. split; [reflexivity|]. split.
  - intros H. apply Hgt in H as [H _]. lia.
  - exact (Hrun 6).
Defined.

(** ** The loop over epochs and its checkpoints *)

Section EpochLoop.
Import Epochs.
Variables name time_stamp : string.
Variable save : Z.

Lemma epoch_body_Some epoch :
  save ≠ 0 →
  epoch_body name time_stamp save epoch
  = Some ([TrainEpoch epoch; Validate epoch; SaveStatistics epoch]
          ++ (if decide (epoch `mod` save = 0 ∧ 0 < epoch)
              then [SaveCheckpoint (epoch + 1)
                      (sim_name name time_stamp epoch)]
              else [])).
Proof.
  intros Hs. unfold epoch_body, Py.mod_. by rewrite decide_False.
Qed.

Lemma epochs_from_spec start len :
  save ≠ 0 →
  ∃ evs, epochs_from name time_stamp save start len = Some evs ∧
    (∀ e, TrainEpoch e ∈ evs ↔ start ≤ e < start + Z.of_nat len) ∧
    (∀ stored sn, SaveCheckpoint stored sn ∈ evs ↔
       ∃ e, start ≤ e < start + Z.of_nat len ∧ 0 < e ∧ e `mod` save = 0 ∧
            stored = e + 1 ∧ sn = sim_name name time_stamp e).
Proof.
  intros Hs. revert start. induction len as [|len IH]; intros start.
  - exists []. split; [done|]. split.
    + intros e. rewrite elem_of_nil. lia.
    + intros stored sn. rewrite elem_of_nil. split; [done|].
      intros (e & ? & _). lia.
  - destruct (IH (start + 1)) as (rest & Hrest & Htrain & Hsave).
    cbn [epochs_from]. rewrite epoch_body_Some by done.
    cbn [mbind option_bind]. rewrite Hrest. cbn [mbind option_bind].
    eexists. split; [done|]. split.
    + intros e. rewrite !elem_of_app, Htrain, !elem_of_cons, elem_of_nil.
      split.
      * intros [[[H|[H|[H|[]]]]|H]|H]; simplify_eq; [lia| |lia].
        destruct (decide _); [|by apply elem_of_nil in H].
        apply list_elem_of_singleton in H. done.
      * intros He. destruct (decide (e = start)) as [->|Hne].
        -- left. left. by left.
        -- right. lia.
    + intros stored sn. rewrite !elem_of_app, Hsave, !elem_of_cons, elem_of_nil.
      split.
      * intros [[[H|[H|[H|[]]]]|H]|(e & He & Hpos & Hmod & -> & ->)];
          simplify_eq.
        -- destruct (decide _) as [[Hmod Hpos]|]; [|by apply elem_of_nil in H].
           apply list_elem_of_singleton in H. simplify_eq.
           exists start. split_and!; try done; lia.
        -- exists e. split_and!; try done; lia.
      * intros (e & He & Hpos & Hmod & -> & ->).
        destruct (decide (e = start)) as [->|Hne].
        -- left. right. rewrite decide_True by done.
           by apply list_elem_of_singleton.
        -- right. exists e. split_and!; try done; lia.
Qed.

End EpochLoop.

(** X10: with [args.save] not 0, the loop trains every epoch from
    [start_epoch] to [epochs - 1] and writes a checkpoint exactly after the
    epochs that are positive multiples of [args.save], storing
    [epoch + 1] under the name made of [args.name], the time stamp and the
    epoch: nothing is saved after epoch 0, and the last epoch is saved only
    if it is such a multiple. *)
Theorem checkpoints_of_the_loop (name time_stamp : string)
    (save start_epoch epochs : Z) :
  save ≠ 0 →
  ∃ evs, Epochs.epoch_loop name time_stamp save start_epoch epochs = Some evs ∧
    (∀ e, Epochs.TrainEpoch e ∈ evs ↔ start_epoch ≤ e < epochs) ∧
    (∀ stored sn, Epochs.SaveCheckpoint stored sn ∈ evs ↔
       ∃ e, start_epoch ≤ e < epochs ∧ 0 < e ∧ e `mod` save = 0 ∧
            stored = e + 1 ∧ sn = Epochs.sim_name name time_stamp e).
Proof.
  intros Hs. unfold Epochs.epoch_loop.
  destruct (epochs_from_spec name time_stamp save start_epoch
              (Z.to_nat (epochs - start_epoch)) Hs)
    as (evs & Hrun & Htrain & Hsave).
  exists evs. split; [done|]. split.
  - intros e. rewrite Htrain. lia.
  - intros stored sn. rewrite Hsave.
    split; intros (e & He & H); exists e; (split; [lia|done]).
Qed.

Lemma checkpoints_of_the_loop_witness :
  ∃ evs, Epochs.epoch_loop "run" "12345" 2 0 4 = Some evs ∧
    Epochs.SaveCheckpoint 3 "run12345_2" ∈ evs ∧
    (∀ sn, Epochs.SaveCheckpoint 1 sn ∉ evs) ∧
    (∀ sn, Epochs.SaveCheckpoint 4 sn ∉ evs).
Proof.
  destruct (checkpoints_of_the_loop "run" "12345" 2 0 4)
    as (evs & Hrun & _ & Hsave); [lia|].
  exists evs. split; [exact Hrun|]. split_and!.
  - apply Hsave. exists 2. repeat split; lia.
  - intros sn H. apply Hsave in H as (e & _ & Hpos & _ & Hst & _). lia.
  - intros sn H. apply Hsave in H as (e & _ & _ & Hmod & Hst & _).
    assert (e = 3) as -> by lia. discriminate Hmod.
Defined.

(** ** Saving and resuming *)

Lemma string_app_cons (c : Ascii.ascii) (s1 s2 : string) :
  (String c s1 +:+ s2)%string = String c (s1 +:+ s2)%string.
Proof. reflexivity. Qed.

Lemma string_app_nil (s : string) : (""%string +:+ s)%string = s.
Proof. reflexivity. Qed.

Lemma string_app_assoc (s1 s2 s3 : string) :
  ((s1 +:+ s2) +:+ s3 = s1 +:+ s2 +:+ s3)%string.
Proof.
  induction s1 as [|c s1 IH]; [by rewrite !string_app_nil|].
  by rewrite !string_app_cons, IH.
Qed.

Lemma string_length_app (s1 s2 : string) :
  String.length (s1 +:+ s2) = (String.length s1 + String.length s2)%nat.
Proof.
  induction s1 as [|c s1 IH]; [by rewrite string_app_nil|].
  rewrite string_app_cons. simpl. by rewrite IH.
Qed.

Lemma string_app_inj_r (s1 s2 t : string) :
  (s1 +:+ t = s2 +:+ t)%string → s1 = s2.
Proof.
  revert s2. induction s1 as [|c s1 IH]; intros [|c' s2] H;
    rewrite ?string_app_nil, ?string_app_cons in H.
  - done.
  - apply (f_equal String.length) in H. simpl in H.
    rewrite string_length_app in H. lia.
  - apply (f_equal String.length) in H. simpl in H.
    rewrite string_length_app in H. lia.
  - injection H as -> H. f_equal. by apply IH.
Qed.

(** The file a checkpoint is written to. *)
Lemma save_checkpoint_path {C} (state : C) sn (fs : gmap string C) :
  Epochs.save_checkpoint state Epochs.checkpoint_file sn fs
  = <[((Epochs.backups +:+ sn) +:+ "/checkpoint.pth.tar")%string := state]> fs.
Proof.
  unfold Epochs.save_checkpoint. f_equal.
  rewrite !string_app_assoc. done.
Qed.

(** X11: a checkpoint written by [save_checkpoint] under a simulation name
    is the one the resume block finds when [args.resume] is the backup
    directory of that name (without the final slash): if
    [model.load_state_dict] takes the saved state dictionary, the run
    resumes with the stored epoch, the saved server and statistics and the
    loaded model. *)
Theorem save_then_resume {Server Statistics Model StateDict}
    (load : Model → StateDict → option Model) (sn : string)
    (ck : Main.checkpoint Server Statistics StateDict)
    (fs : gmap string (Main.checkpoint Server Statistics StateDict))
    (r : Main.run Server Statistics Model) (m : Model) :
  load (Main.model r) (Main.ck_state_dict ck) = Some m →
  Main.resume load (Epochs.backups +:+ sn)
    (λ path, Epochs.save_checkpoint ck Epochs.checkpoint_file sn fs !! path) r
  = Some (Main.Run (Main.ck_epoch ck) (Main.ck_server ck)
            (Main.ck_val_stats ck) (Main.ck_train_stats ck) m).
Proof.
  intros Hload. rewrite (resume_found _ _ _ _ ck).
  - by rewrite Hload.
  - done.
  - rewrite save_checkpoint_path. apply lookup_insert_eq.
Qed.

Lemma save_then_resume_witness :
  Main.resume Main.strict_load_state_dict (Epochs.backups +:+ "run12345_2")
    (λ path, Epochs.save_checkpoint Main.toy_checkpoint
               Epochs.checkpoint_file "run12345_2" ∅ !! path)
    Main.toy_run
  = Some (Main.Run 7 (Main.ServerConfig 8 false) [3%Q] [4%Q]
            {["module.fc.weight"%string := [1; 2]%Q]}).
Proof.
  apply (save_then_resume Main.strict_load_state_dict "run12345_2"
           Main.toy_checkpoint ∅ Main.toy_run).
  vm_compute. reflexivity.
Defined.

(** X12: within a run (one name, one time stamp) the checkpoints of
    different epochs go to different files, so a later checkpoint does not
    overwrite an earlier one: both can be read back. *)
Theorem checkpoints_do_not_overwrite {C} (name time_stamp : string)
    (e1 e2 : Z) (ck1 ck2 : C) (fs : gmap string C) :
  e1 ≠ e2 →
  let p1 := ((Epochs.backups +:+ Epochs.sim_name name time_stamp e1)
             +:+ "/checkpoint.pth.tar")%string in
  let p2 := ((Epochs.backups +:+ Epochs.sim_name name time_stamp e2)
             +:+ "/checkpoint.pth.tar")%string in
  let fs' := Epochs.save_checkpoint ck2 Epochs.checkpoint_file
               (Epochs.sim_name name time_stamp e2)
               (Epochs.save_checkpoint ck1 Epochs.checkpoint_file
                  (Epochs.sim_name name time_stamp e1) fs) in
  p1 ≠ p2 ∧ fs' !! p1 = Some ck1 ∧ fs' !! p2 = Some ck2.
Proof.
  intros Hne p1 p2 fs'.
  assert (Hp : p1 ≠ p2).
  { unfold p1, p2, Epochs.sim_name. intros Heq.
    apply string_app_inj_r in Heq.
    do 4 apply (inj (String.append _)) in Heq.
    by apply (inj pretty) in Heq. }
  split; [done|]. unfold fs'. rewrite !save_checkpoint_path. fold p1 p2.
  split.
  - rewrite lookup_insert_ne by done. apply lookup_insert_eq.
  - apply lookup_insert_eq.
Qed.

Lemma checkpoints_do_not_overwrite_witness :
  Epochs.save_checkpoint 20%nat Epochs.checkpoint_file
    (Epochs.sim_name "run" "12345" 4)
    (Epochs.save_checkpoint 10%nat Epochs.checkpoint_file
       (Epochs.sim_name "run" "12345" 2) ∅)
  !! "/media/drive/ehoffer/backups/run12345_2/checkpoint.pth.tar"%string
  = Some 10%nat.
Proof.
  apply (checkpoints_do_not_overwrite "run" "12345" 2 4 10%nat 20%nat ∅).
  lia.
Defined.

(** ** [accuracy] *)

Section AccuracyFacts.
Import Accuracy.

Lemma max_Some (topk : list Z) :
  topk ≠ [] →
  ∃ m, max_ topk = Some m ∧ m ∈ topk ∧ ∀ k, k ∈ topk → k ≤ m.
Proof.
  destruct topk as [|k ks]; [done|]. intros _. simpl.
  eexists. split; [done|].
  induction ks as [|k' ks [IHin IHle]]; simpl.
  - split; [by left|]. intros k0 ->%list_elem_of_singleton. lia.
  - split.
    + destruct (Z.max_spec k' (foldr Z.max k ks)) as [[_ ->]|[_ ->]].
      * apply elem_of_cons in IHin as [->|?]; [by left|]. by do 2 right.
      * right. by left.
    + intros k0 Hk0. rewrite !elem_of_cons in Hk0.
      destruct Hk0 as [->|[->|Hk0]].
      * assert (k ≤ foldr Z.max k ks) by (apply IHle; by left). lia.
      * lia.
      * assert (k0 ≤ foldr Z.max k ks) by (apply IHle; by right). lia.
Qed.

Lemma expand_as_None target samples :
  expand_as target samples = None ↔
  length target ≠ samples ∧ length target ≠ 1%nat.
Proof.
  unfold expand_as. destruct (decide _) as [Heq|Hne].
  - split; [done|]. by intros [? _].
  - destruct target as [|t [|t' target]]; simpl; split; try done;
      try (intros [_ ?]; done); intros _; split; try done; simpl in *; lia.
Qed.








Lemma accuracy_None {F} (N : Num.floats F) classes pred target topk :
  accuracy N classes pred target topk = None ↔
  topk = [] ∨ (∃ k, k ∈ topk ∧ classes < k) ∨ (∀ k, k ∈ topk → k < 0) ∨
  target = [] ∨ (length target ≠ length pred ∧ length target ≠ 1%nat).
Proof.
  destruct (decide (topk = [])) as [->|Htopk].
  { split; [by left|done]. }
  unfold accuracy.
  destruct (max_Some topk Htopk) as (m & -> & Hm & Hmax).
  cbn [mbind option_bind].
  destruct (decide (0 ≤ m ≤ classes)) as [Hrange|Hrange].
  - destruct (expand_as target (length pred)) as [expanded|] eqn:Hexp.
    + cbn [mbind option_bind].
      destruct target as [|t target].
      * split; [intros _; by do 3 right; left|].
        intros _. by destruct topk.
      * split.
        -- intros Hnone. exfalso. apply eq_None_not_Some in Hnone.
           apply Hnone, mapM_is_Some, Forall_forall. intros k _.
           unfold compose. case_decide as Hz; [simpl in Hz; lia|done].
        -- intros [?|[(k & Hk & Hgt)|[Hneg|[?|Hexp']]]].
           ++ done.
           ++ specialize (Hmax k Hk). lia.
           ++ specialize (Hneg m Hm). lia.
           ++ done.
           ++ apply expand_as_None in Hexp'. congruence.
    + cbn [mbind option_bind]. split; [|done]. intros _.
      apply expand_as_None in Hexp. by do 4 right.
  - split; [|done]. intros _.
    destruct (decide (classes < m)); [right; left; by exists m|].
    do 2 right. left. intros k Hk. specialize (Hmax k Hk). lia.
Qed.



End AccuracyFacts.

(** X13: in any arithmetic, [accuracy] raises exactly when [topk] is
    empty ([max] of nothing), when its largest entry is negative or exceeds
    the number of classes (the library's [topk]), when there is no target
    ([100.0 / batch_size]), or when the targets are neither one per sample
    nor a single one ([expand_as]). *)
Theorem accuracy_raises_iff {F} (N : Num.floats F) (classes : Z)
    (pred : list (list Z)) (target : list Z) (topk : list Z) :
  Accuracy.accuracy N classes pred target topk = None ↔
  topk = [] ∨ (∃ k, k ∈ topk ∧ classes < k) ∨ (∀ k, k ∈ topk → k < 0) ∨
  target = [] ∨ (length target ≠ length pred ∧ length target ≠ 1%nat).
Proof. apply accuracy_None. Qed.



(** A single target against a batch of three samples is compared with
    every sample, and the count is scaled by [100.0 / 1]: the result is no
    percentage. *)
Example accuracy_single_target :
  ∃ prec1,
    Accuracy.accuracy Num.exact_floats 3 [[1]; [1]; [1]] [1] [1]
    = Some [prec1] ∧
    (prec1 == 300)%Q.
Proof. eexists. split; reflexivity. Qed.

(** A negative entry of [topk] beside a valid one is a slice from the
    end. *)
Example accuracy_negative_k :
  ∃ r1 r2, Accuracy.accuracy Num.exact_floats 3 [[2; 0]; [1; 2]] [0; 1] [2; -1]
           = Some [r1; r2] ∧ (r1 == 100)%Q ∧ (r2 == 50)%Q.
Proof. eexists _, _. split; [reflexivity|]. split; reflexivity. Qed.

(** With the floats of torch, 45 hits in a batch of 45 give
    [45 * float32(100.0 / 45)], the float32 number next above 100. *)
Example accuracy_float32_above_100 :
  Accuracy.accuracy Num.torch_floats 2 (Accuracy.all_correct 45).1
    (Accuracy.all_correct 45).2 [1]
  = Some [S754_finite false 13107201 (-17)] ∧
  Num.of_int Num.binary32 100 = S754_finite false 13107200 (-17).
Proof. split; vm_compute; reflexivity. Qed.

(** ** [set_model_weights] *)

Section SetWeights.
Import Torch Weights.
Variable cuda : option (loc → bool).
Variable weights : gmap string loc.

Lemma placed_Some l (h : heap) r :
  placed cuda l h = Some r →
  (r.1 = l ∧ r.2 = h) ∨
  (∃ t, h !! l = Some t ∧ (r.1 ∉ dom h) ∧ r.2 = <[r.1 := t]> h).
Proof.
  unfold placed. destruct cuda as [on_device|].
  - destruct (on_device l).
    + intros [= <-]. by left.
    + intros Hc. right. by apply clone_Some.
  - intros [= <-]. by left.
Qed.

Lemma placed_in_place l (h : heap) :
  used_in_place cuda l → placed cuda l h = Some (l, h).
Proof.
  unfold used_in_place, placed. destruct cuda as [on_device|]; [|done].
  by intros ->.
Qed.

Lemma placed_is_Some l (h : heap) : l ∈ dom h → is_Some (placed cuda l h).
Proof.
  intros Hl. unfold placed. destruct cuda as [on_device|]; [|by eexists].
  destruct (on_device l); [by eexists|]. by apply clone_is_Some.
Qed.

Lemma set_parameters_keeps ps (h : heap) ps' h' :
  set_parameters cuda weights ps h = Some (ps', h') →
  ∀ l, l ∈ dom h → h' !! l = h !! l.
Proof.
  revert h ps'. induction ps as [|[name w] ps IH]; intros h ps' Hrun l Hl.
  - by injection Hrun as <- <-.
  - cbn [set_parameters] in Hrun. unfold set_parameter in Hrun.
    destruct (weights !! name) as [l0|]; [simpl in Hrun|done].
    destruct (placed cuda l0 h) as [r|] eqn:Hplaced; [simpl in Hrun|done].
    destruct (set_parameters cuda weights ps r.2) as [[rest h2]|] eqn:Hrest;
      [simpl in Hrun|done].
    injection Hrun as <- <-.
    apply placed_Some in Hplaced as [[_ Hr2]|(t & _ & Hfresh & Hr2)].
    + rewrite Hr2 in Hrest. by apply (IH _ _ Hrest).
    + rewrite (IH _ _ Hrest).
      * rewrite Hr2. apply lookup_insert_ne.
        intros Heq. apply Hfresh. by rewrite Heq.
      * rewrite Hr2, dom_insert_L. by apply elem_of_union_r.
Qed.

Lemma set_parameters_spec ps (h : heap) ps' h' :
  (∀ name l, weights !! name = Some l → l ∈ dom h) →
  set_parameters cuda weights ps h = Some (ps', h') →
  Forall2 (loaded cuda weights h h') ps ps'.
Proof.
  revert h ps'. induction ps as [|[name w] ps IH]; intros h ps' Hwf Hrun.
  - injection Hrun as <- <-. constructor.
  - cbn [set_parameters] in Hrun. unfold set_parameter in Hrun.
    destruct (weights !! name) as [l0|] eqn:Hname; [simpl in Hrun|done].
    destruct (placed cuda l0 h) as [r|] eqn:Hplaced; [simpl in Hrun|done].
    destruct (set_parameters cuda weights ps r.2) as [[rest h2]|] eqn:Hrest;
      [simpl in Hrun|done].
    injection Hrun as <- <-.
    pose proof (Hwf name l0 Hname) as Hl0.
    apply elem_of_dom in Hl0 as [t0 Ht0].
    pose proof (set_parameters_keeps _ _ _ _ Hrest) as Hkeep.
    assert (Hr : (∀ l, l ∈ dom h → r.2 !! l = h !! l) ∧
                 r.2 !! r.1 = Some t0 ∧ (used_in_place cuda l0 → r.1 = l0)).
    { pose proof Hplaced as Hp.
      apply placed_Some in Hp as [[Hr1 Hr2]|(t & Ht & Hfresh & Hr2)].
      - rewrite Hr1, Hr2. done.
      - split_and!.
        + intros l Hl. rewrite Hr2. apply lookup_insert_ne.
          intros Heq. apply Hfresh. by rewrite Heq.
        + rewrite Hr2 at 1. rewrite lookup_insert_eq. congruence.
        + intros Hin. rewrite placed_in_place in Hplaced by done.
          by injection Hplaced as <-. }
    destruct Hr as (Hkeep1 & Hr1 & Hplace).
    assert (Hdom : ∀ l, l ∈ dom h → l ∈ dom r.2).
    { intros l Hl. apply elem_of_dom. rewrite Hkeep1 by done.
      by apply elem_of_dom. }
    constructor.
    + split; [done|]. split; [done|]. exists l0, t0. simpl.
      split_and!; try done.
      rewrite Hkeep; [done|]. apply elem_of_dom. by eexists.
    + eapply Forall2_impl.
      * apply (IH r.2 rest); [|done]. intros n l Hn. by apply Hdom, (Hwf n).
      * intros np np' (Hn & Hg & l & t & Hl & Ht & Ht' & Hplace').
        split; [done|]. split; [done|]. exists l, t.
        split_and!; try done.
        rewrite <- Hkeep1; [done|]. by apply (Hwf np.1).
Qed.

Lemma set_parameters_is_Some ps (h : heap) :
  (∀ name l, weights !! name = Some l → l ∈ dom h) →
  (∀ np, np ∈ ps → is_Some (weights !! np.1)) →
  is_Some (set_parameters cuda weights ps h).
Proof.
  revert h. induction ps as [|[name w] ps IH]; intros h Hwf Hnames;
    [by eexists|].
  cbn [set_parameters]. unfold set_parameter.
  destruct (Hnames (name, w)) as [l0 Hl0]; [by left|]. simpl in Hl0.
  rewrite Hl0. simpl.
  destruct (placed_is_Some l0 h) as [r Hr]; [by apply (Hwf name)|].
  rewrite Hr. simpl.
  destruct (IH r.2) as [rest Hrest].
  - intros n l Hn.
    apply placed_Some in Hr as [[_ ->]|(t & _ & _ & ->)]; [by apply (Hwf n)|].
    rewrite dom_insert_L. apply elem_of_union_r. by apply (Hwf n).
  - intros np Hnp. apply Hnames. by right.
  - rewrite Hrest. by eexists.
Qed.

Lemma set_parameters_missing ps (h : heap) :
  (∃ np, np ∈ ps ∧ weights !! np.1 = None) →
  set_parameters cuda weights ps h = None.
Proof.
  revert h. induction ps as [|[name w] ps IH]; intros h (np & Hnp & Hmiss).
  - by apply elem_of_nil in Hnp.
  - cbn [set_parameters]. unfold set_parameter.
    apply elem_of_cons in Hnp as [->|Hnp].
    + simpl in Hmiss. by rewrite Hmiss.
    + destruct (weights !! name) as [l0|]; [simpl|done].
      destruct (placed cuda l0 h) as [r|]; [simpl|done].
      rewrite IH; [done|]. by exists np.
Qed.

End SetWeights.

Lemma Forall2_elem_of_r {A B} (R : A → B → Prop) (l : list A) (k : list B) y :
  Forall2 R l k → y ∈ k → ∃ x, x ∈ l ∧ R x y.
Proof.
  intros HF Hy. apply list_elem_of_lookup in Hy as [i Hi].
  destruct (Forall2_lookup_r _ _ _ _ _ HF Hi) as (x & Hx & HR).
  exists x. split; [|done]. apply list_elem_of_lookup. by exists i.
Qed.

Lemma Forall2_elem_of_l {A B} (R : A → B → Prop) (l : list A) (k : list B) x :
  Forall2 R l k → x ∈ l → ∃ y, y ∈ k ∧ R x y.
Proof.
  intros HF Hx. apply list_elem_of_lookup in Hx as [i Hi].
  destruct (Forall2_lookup_l _ _ _ _ _ HF Hi) as (y & Hy & HR).
  exists y. split; [|done]. apply list_elem_of_lookup. by exists i.
Qed.

(** X15: when the tensors of the pulled dictionary exist and every
    parameter name is a key, [set_model_weights] returns; it changes no
    existing tensor; every parameter keeps its name and its gradient and
    holds the entries of the tensor pulled under its name; and where that
    tensor is used in place (no CUDA, or already on the device) the
    parameter's data is that very tensor. *)
Theorem set_model_weights_loads (cuda : option (positive → bool))
    (weights : gmap string positive) (m : Torch.model)
    (h : gmap positive (list Q)) :
  (∀ name l, weights !! name = Some l → l ∈ dom h) →
  (∀ np, np ∈ Torch.named_parameters m → is_Some (weights !! np.1)) →
  ∃ ps' h', Weights.set_model_weights cuda weights m h = Some (ps', h') ∧
    (∀ l, l ∈ dom h → h' !! l = h !! l) ∧
    Forall2 (Weights.loaded cuda weights h h') (Torch.named_parameters m) ps'.
Proof.
  intros Hwf Hnames. unfold Weights.set_model_weights.
  destruct (set_parameters_is_Some cuda weights (Torch.named_parameters m) h
              Hwf Hnames) as [[ps' h'] Hrun].
  exists ps', h'. split; [done|]. split.
  - by apply (set_parameters_keeps cuda weights _ _ _ _ Hrun).
  - by apply set_parameters_spec.
Qed.

Lemma toy_weights_in_heap name l :
  Weights.toy_weights !! name = Some l → l ∈ dom Torch.toy_heap.
Proof.
  intros Hl.
  assert (Hin : (name, l) ∈ map_to_list Weights.toy_weights)
    by by apply elem_of_map_to_list.
  vm_compute map_to_list in Hin.
  apply elem_of_dom.
  rewrite !elem_of_cons, elem_of_nil in Hin.
  destruct Hin as [[= -> ->]|[[= -> ->]|[[= -> ->]|[]]]]; vm_compute; eauto.
Qed.

Lemma toy_names_in_weights np :
  np ∈ Torch.named_parameters Torch.toy_model →
  is_Some (Weights.toy_weights !! np.1).
Proof.
  intros Hnp.
  change (Torch.named_parameters Torch.toy_model)
    with [("fc.weight"%string, Torch.fc_weight);
          ("fc.bias"%string, Torch.fc_bias);
          ("bn.weight"%string, Torch.bn_weight)] in Hnp.
  rewrite !elem_of_cons, elem_of_nil in Hnp.
  destruct Hnp as [->|[->|[->|[]]]]; vm_compute; eauto.
Qed.

Lemma set_model_weights_loads_witness :
  ∃ ps' h', Weights.set_model_weights (Some (λ _, false)) Weights.toy_weights
              Torch.toy_model Torch.toy_heap = Some (ps', h') ∧
    (∀ l, l ∈ dom Torch.toy_heap → h' !! l = Torch.toy_heap !! l) ∧
    Forall2 (Weights.loaded (Some (λ _, false)) Weights.toy_weights
               Torch.toy_heap h')
      (Torch.named_parameters Torch.toy_model) ps'.
Proof.
  apply (set_model_weights_loads (Some (λ _, false)) Weights.toy_weights
           Torch.toy_model Torch.toy_heap).
  - exact toy_weights_in_heap.
  - exact toy_names_in_weights.
Defined.

(** X16: [set_model_weights] raises (a [KeyError]) exactly when a
    parameter of the model has no entry under its name in the pulled
    dictionary; entries under other names are ignored. *)
Theorem set_model_weights_raises_iff (cuda : option (positive → bool))
    (weights : gmap string positive) (m : Torch.model)
    (h : gmap positive (list Q)) :
  (∀ name l, weights !! name = Some l → l ∈ dom h) →
  (Weights.set_model_weights cuda weights m h = None ↔
   ∃ np, np ∈ Torch.named_parameters m ∧ weights !! np.1 = None).
Proof.
  intros Hwf. unfold Weights.set_model_weights. split.
  - intros Hnone.
    destruct (decide (Forall (λ np, is_Some (weights !! np.1))
                        (Torch.named_parameters m))) as [Hall|Hex].
    + rewrite Forall_forall in Hall.
      destruct (set_parameters_is_Some cuda weights _ h Hwf Hall) as [r Hr].
      congruence.
    + apply not_Forall_Exists in Hex; [|apply _].
      apply Exists_exists in Hex as (np & Hnp & Hmiss).
      exists np. split; [done|]. by apply eq_None_not_Some.
  - apply set_parameters_missing.
Qed.

Lemma set_model_weights_raises_iff_witness :
  Weights.set_model_weights None (delete "fc.bias"%string Weights.toy_weights)
    Torch.toy_model Torch.toy_heap = None.
Proof.
  apply (set_model_weights_raises_iff None
           (delete "fc.bias"%string Weights.toy_weights)
           Torch.toy_model Torch.toy_heap).
  - intros name l Hl. apply lookup_delete_Some in Hl as [_ Hl].
    by apply (toy_weights_in_heap name).
  - exists ("fc.bias"%string, Torch.fc_bias). split; [|reflexivity].
    right. left.
Defined.

(** X17: the parameters share their storage with the pulled dictionary:
    where the pulled tensors are used in place (no CUDA, or tensors already
    on the device), the data of every parameter is the tensor of the
    dictionary under its name, so an in-place operation on a parameter of
    the model changes what the dictionary holds under that name. *)
Theorem set_model_weights_shares_storage (cuda : option (positive → bool))
    (weights : gmap string positive) (m : Torch.model)
    (h : gmap positive (list Q)) :
  (∀ name l, weights !! name = Some l → l ∈ dom h) →
  (∀ np, np ∈ Torch.named_parameters m → is_Some (weights !! np.1)) →
  (∀ name l, weights !! name = Some l → Weights.used_in_place cuda l) →
  ∃ ps' h', Weights.set_model_weights cuda weights m h = Some (ps', h') ∧
    h' = h ∧
    ∀ name p', (name, p') ∈ ps' →
      weights !! name = Some (Torch.data p') ∧
      ∀ f, Torch.contents weights (Torch.mutate h' [(Torch.data p', f)])
           !! name
           = f <$> (Torch.contents weights h' !! name).
Proof.
  intros Hwf Hnames Hplace. unfold Weights.set_model_weights.
  destruct (set_parameters_is_Some cuda weights (Torch.named_parameters m) h
              Hwf Hnames) as [[ps' h'] Hrun].
  exists ps', h'. split; [done|].
  pose proof (set_parameters_spec cuda weights _ _ _ _ Hwf Hrun) as Hspec.
  assert (Hh : h' = h).
  { clear Hspec Hnames. revert ps' Hrun.
    induction (Torch.named_parameters m) as [|[name w] ps IH];
      intros ps' Hrun.
    - by injection Hrun as <- <-.
    - cbn [Weights.set_parameters] in Hrun.
      unfold Weights.set_parameter in Hrun.
      destruct (weights !! name) as [l0|] eqn:Hname; [simpl in Hrun|done].
      rewrite placed_in_place in Hrun by by apply (Hplace name).
      simpl in Hrun.
      destruct (Weights.set_parameters cuda weights ps h)
        as [[rest h2]|] eqn:Hrest; [simpl in Hrun|done].
      injection Hrun as <- <-. by apply (IH rest). }
  split; [done|]. intros name p' Hp'.
  destruct (Forall2_elem_of_r _ _ _ _ Hspec Hp')
    as (np & _ & Hn & _ & l & t & Hl & Ht & Ht' & Hsame).
  simpl in Hn, Ht', Hsame. rewrite <- Hn in Hl.
  rewrite Hsame by by apply (Hplace name). split; [done|].
  intros f. unfold Torch.contents, Torch.mutate. simpl.
  rewrite !lookup_omap, Hl. simpl. by rewrite lookup_alter_eq.
Qed.

Lemma set_model_weights_shares_storage_witness :
  ∃ ps' h', Weights.set_model_weights None Weights.toy_weights
              Torch.toy_model Torch.toy_heap = Some (ps', h') ∧
    h' = Torch.toy_heap ∧
    ∀ name p', (name, p') ∈ ps' →
      Weights.toy_weights !! name = Some (Torch.data p') ∧
      ∀ f, Torch.contents Weights.toy_weights
             (Torch.mutate h' [(Torch.data p', f)]) !! name
           = f <$> (Torch.contents Weights.toy_weights h' !! name).
Proof.
  apply (set_model_weights_shares_storage None Weights.toy_weights
           Torch.toy_model Torch.toy_heap).
  - exact toy_weights_in_heap.
  - exact toy_names_in_weights.
  - intros name l _. exact I.
Defined.

(** X18: loading and reading back: after [set_model_weights], the loop of
    [get_model_weights] over the parameters returns a dictionary with the
    names of the model, holding under each name the entries the pulled
    dictionary held under it. *)
Theorem set_then_get_model_weights (cuda : option (positive → bool))
    (weights : gmap string positive) (m : Torch.model)
    (h : gmap positive (list Q)) :
  (∀ name l, weights !! name = Some l → l ∈ dom h) →
  (∀ np, np ∈ Torch.named_parameters m → is_Some (weights !! np.1)) →
  ∃ ps' h' d h'',
    Weights.set_model_weights cuda weights m h = Some (ps', h') ∧
    Torch.get_model_weights_from ps' ∅ h' = Some (d, h'') ∧
    (∀ name, is_Some (d !! name) ↔
             ∃ p, (name, p) ∈ Torch.named_parameters m) ∧
    (∀ name, is_Some (d !! name) →
             Torch.contents d h'' !! name = Torch.contents weights h !! name).
Proof.
  intros Hwf Hnames. unfold Weights.set_model_weights.
  destruct (set_parameters_is_Some cuda weights (Torch.named_parameters m) h
              Hwf Hnames) as [[ps' h'] Hrun].
  pose proof (set_parameters_spec cuda weights _ _ _ _ Hwf Hrun) as Hspec.
  assert (Hdata : ∀ np', np' ∈ ps' →
    ∃ l t, weights !! np'.1 = Some l ∧ h !! l = Some t ∧
           h' !! Torch.data np'.2 = Some t).
  { intros np' Hnp'.
    destruct (Forall2_elem_of_r _ _ _ _ Hspec Hnp')
      as (np & _ & Hn & _ & l & t & Hl & Ht & Ht' & _).
    exists l, t. by rewrite Hn. }
  destruct (clone_each_is_Some (λ p, Some (Torch.data p)) ps' ∅ h')
    as [[d h''] Hget].
  { intros np' Hnp'. eexists. split; [done|].
    destruct (Hdata np' Hnp') as (l & t & _ & _ & Ht').
    apply elem_of_dom. by eexists. }
  exists ps', h', d, h''. split; [done|].
  split; [by rewrite get_model_weights_from_clone_each|].
  apply clone_each_spec in Hget as (_ & Hdnames & Hentries).
  2:{ intros np' l Hnp' [= <-].
      destruct (Hdata np' Hnp') as (l & t & _ & _ & Ht').
      apply elem_of_dom. by eexists. }
  split.
  - intros name. rewrite Hdnames, lookup_empty. split.
    + intros [[? [=]]|[p' Hp']].
      destruct (Forall2_elem_of_r _ _ _ _ Hspec Hp') as (np & Hnp & Hn & _).
      exists np.2. simpl in Hn. rewrite Hn. by destruct np.
    + intros [p Hp]. right.
      destruct (Forall2_elem_of_l _ _ _ _ Hspec Hp) as (np' & Hnp' & Hn & _).
      exists np'.2. simpl in Hn. rewrite <- Hn. by destruct np'.
  - intros name [c Hc]. unfold Torch.contents. rewrite !lookup_omap, Hc.
    simpl.
    destruct (Hentries name c Hc)
      as [Hc'|(_ & p' & l' & t' & Hp' & [= <-] & Ht' & Hc'')];
      [by rewrite lookup_empty in Hc'|].
    destruct (Hdata (name, p') Hp') as (l & t & Hl & Ht & Hd).
    simpl in Hl, Hd. rewrite Hl. simpl. congruence.
Qed.

Lemma set_then_get_model_weights_witness :
  ∃ ps' h' d h'',
    Weights.set_model_weights (Some (λ _, false)) Weights.toy_weights
      Torch.toy_model Torch.toy_heap = Some (ps', h') ∧
    Torch.get_model_weights_from ps' ∅ h' = Some (d, h'') ∧
    (∀ name, is_Some (d !! name) ↔
             ∃ p, (name, p) ∈ Torch.named_parameters Torch.toy_model) ∧
    (∀ name, is_Some (d !! name) →
             Torch.contents d h'' !! name
             = Torch.contents Weights.toy_weights Torch.toy_heap !! name).
Proof.
  apply (set_then_get_model_weights (Some (λ _, false)) Weights.toy_weights
           Torch.toy_model Torch.toy_heap).
  - exact toy_weights_in_heap.
  - exact toy_names_in_weights.
Defined.

(** ** Parameters without a gradient *)

Lemma clone_each_None sel ps d (h : gmap positive (list Q)) :
  (∃ np, np ∈ ps ∧ sel np.2 = None) → Torch.clone_each sel ps d h = None.
Proof.
  revert d h. induction ps as [|[name w] ps IH]; intros d h (np & Hnp & Hnone).
  - by apply elem_of_nil in Hnp.
  - cbn [Torch.clone_each]. apply elem_of_cons in Hnp as [->|Hnp].
    + simpl in Hnone. by rewrite Hnone.
    + destruct (sel w) as [l|]; [simpl|done].
      destruct (Torch.clone l h) as [r|]; [simpl|done].
      apply IH. by exists np.
Qed.

(** X19: with the tensors of the model in the heap, [get_model_gradients]
    raises exactly when some parameter has no gradient ([weight.grad] is
    [None], as before the first backward pass or for a parameter that takes
    no part in the loss); [get_model_weights] never raises. *)
Theorem get_model_gradients_raises_iff (m : Torch.model)
    (h : gmap positive (list Q)) :
  (∀ l, l ∈ Torch.model_locs m → l ∈ dom h) →
  (Torch.get_model_gradients m h = None ↔
   ∃ np, np ∈ Torch.named_parameters m ∧ Torch.grad np.2 = None) ∧
  is_Some (Torch.get_model_weights m h).
Proof.
  intros Hwf.
  assert (Hlocs : ∀ np l, np ∈ Torch.named_parameters m →
                          l ∈ Torch.param_locs np.2 → l ∈ dom h).
  { intros np l Hnp Hl. apply Hwf. unfold Torch.model_locs.
    apply list_elem_of_In, in_flat_map. exists np.
    split; by apply list_elem_of_In. }
  split.
  - unfold Torch.get_model_gradients.
    rewrite get_model_gradients_from_clone_each. split.
    + intros Hnone.
      destruct (decide (Forall (λ np, is_Some (Torch.grad np.2))
                          (Torch.named_parameters m))) as [Hall|Hex].
      * rewrite Forall_forall in Hall.
        destruct (clone_each_is_Some Torch.grad (Torch.named_parameters m)
                    ∅ h) as [r Hr]; [|congruence].
        intros np Hnp. destruct (Hall np Hnp) as [l Hl].
        exists l. split; [done|]. apply (Hlocs np); [done|].
        unfold Torch.param_locs. rewrite Hl. right. by left.
      * apply not_Forall_Exists in Hex; [|apply _].
        apply Exists_exists in Hex as (np & Hnp & Hmiss).
        exists np. split; [done|]. by apply eq_None_not_Some.
    + apply clone_each_None.
  - unfold Torch.get_model_weights.
    rewrite get_model_weights_from_clone_each.
    apply clone_each_is_Some. intros np Hnp. eexists. split; [done|].
    apply (Hlocs np); [done|]. by left.
Qed.

Lemma get_model_gradients_raises_iff_witness :
  Torch.get_model_gradients
    [("fc."%string, Torch.Linear (Torch.Param 1 None) None)] Torch.toy_heap
  = None ∧
  is_Some (Torch.get_model_weights
             [("fc."%string, Torch.Linear (Torch.Param 1 None) None)]
             Torch.toy_heap).
Proof.
  destruct (get_model_gradients_raises_iff
              [("fc."%string, Torch.Linear (Torch.Param 1 None) None)]
              Torch.toy_heap) as [Hiff Hweights].
  { intros l Hl. apply list_elem_of_singleton in Hl as ->.
    apply elem_of_dom. vm_compute. eauto. }
  split; [|exact Hweights]. apply Hiff.
  exists ("fc.weight"%string, Torch.Param 1 None). split; [|reflexivity].
  left.
Defined.

(** ** [normalize_gradients] *)

Section Normalize.
Import Torch Weights.

Lemma normalize_parameters_spec c (ps : list parameter) (h : heap) :
  (∀ w, w ∈ ps → ∃ gl g, grad w = Some gl ∧ h !! gl = Some g) →
  NoDup (omap grad ps) →
  ∃ h', normalize_parameters c ps h = Some h' ∧
    (∀ w gl g, w ∈ ps → grad w = Some gl → h !! gl = Some g →
       h' !! gl = Some (t_div g c)) ∧
    (∀ l, l ∉ omap grad ps → h' !! l = h !! l).
Proof.
  revert h. induction ps as [|w ps IH]; intros h Hwf Hnd.
  - exists h. split; [done|]. split; [|done].
    intros w gl g Hw. by apply elem_of_nil in Hw.
  - destruct (Hwf w) as (gl & g & Hgl & Hg); [by left|].
    simpl in Hnd. rewrite Hgl in Hnd. simpl in Hnd.
    apply NoDup_cons in Hnd as [Hnotin Hnd].
    assert (Hne : ∀ w' gl', w' ∈ ps → grad w' = Some gl' → gl' ≠ gl).
    { intros w' gl' Hw' Hgl' ->. apply Hnotin.
      apply list_elem_of_omap. by exists w'. }
    cbn [normalize_parameters]. rewrite Hgl. simpl. rewrite Hg. simpl.
    destruct (IH (<[gl := t_div g c]> h)) as (h' & Hrun & Heffect & Hframe).
    + intros w' Hw'. destruct (Hwf w') as (gl' & g' & Hgl' & Hg'); [by right|].
      exists gl', g'. split; [done|].
      rewrite lookup_insert_ne; [done|]. intros Heq.
      by apply (Hne w' gl').
    + done.
    + exists h'. split; [done|]. split.
      * intros w' gl' g' Hw' Hgl' Hg'.
        destruct (decide (gl' = gl)) as [->|Hneq].
        -- rewrite Hframe by done. rewrite lookup_insert_eq. congruence.
        -- apply elem_of_cons in Hw' as [->|Hw']; [congruence|].
           apply (Heffect w'); [done|done|].
           by rewrite lookup_insert_ne.
      * intros l Hl. simpl in Hl. rewrite Hgl in Hl.
        apply not_elem_of_cons in Hl as [Hneq Hl].
        rewrite Hframe by done. by apply lookup_insert_ne.
Qed.

Lemma omap_grad_named (ps : list (string * parameter)) :
  omap grad ((λ np, np.2) <$> ps) = omap (λ np, grad np.2) ps.
Proof.
  induction ps as [|np ps IH]; [done|].
  rewrite fmap_cons. cbn [omap list_omap]. by rewrite <- IH.
Qed.

End Normalize.

(** X20: when every parameter has a gradient and these gradients are
    distinct tensors, [normalize_gradients] (with a non-zero factor)
    returns, divides every entry of every gradient by the factor, in
    place, and changes nothing else: not the weights, not the weight
    decay's reach (biases and the parameters of other modules are divided
    too). *)
Theorem normalize_gradients_divides (m : Torch.model) (norm_factor : Q)
    (h : gmap positive (list Q)) :
  ¬ (norm_factor == 0)%Q →
  (∀ np, np ∈ Torch.named_parameters m →
         ∃ gl g, Torch.grad np.2 = Some gl ∧ h !! gl = Some g) →
  NoDup (omap (λ np, Torch.grad np.2) (Torch.named_parameters m)) →
  ∃ h', Weights.normalize_gradients m norm_factor h = Some h' ∧
    (∀ name p gl g, (name, p) ∈ Torch.named_parameters m →
       Torch.grad p = Some gl → h !! gl = Some g →
       h' !! gl = Some ((λ x, x / norm_factor)%Q <$> g)) ∧
    (∀ l, (∀ np, np ∈ Torch.named_parameters m → Torch.grad np.2 ≠ Some l) →
          h' !! l = h !! l).
Proof.
  intros _ Hwf Hnd. unfold Weights.normalize_gradients.
  destruct (normalize_parameters_spec norm_factor
              ((λ np, np.2) <$> Torch.named_parameters m) h)
    as (h' & Hrun & Heffect & Hframe).
  - intros w Hw. apply list_elem_of_fmap in Hw as (np & -> & Hnp).
    by apply Hwf.
  - by rewrite omap_grad_named.
  - exists h'. split; [done|]. split.
    + intros name p gl g Hp. apply Heffect.
      apply list_elem_of_fmap. by exists (name, p).
    + intros l Hl. apply Hframe. rewrite omap_grad_named.
      intros Hin. apply list_elem_of_omap in Hin as (np & Hnp & Hgl).
      by apply (Hl np).
Qed.

Lemma normalize_gradients_divides_witness :
  ∃ h', Weights.normalize_gradients Torch.toy_model 2 Torch.toy_heap
        = Some h' ∧
    h' !! 2%positive = Some [1 / 2; 1 / 2]%Q ∧
    h' !! 1%positive = Some [2; 4]%Q.
Proof.
  destruct (normalize_gradients_divides Torch.toy_model 2 Torch.toy_heap)
    as (h' & Hrun & Heffect & Hframe).
  { discriminate. }
  { intros np Hnp.
    change (Torch.named_parameters Torch.toy_model)
      with [("fc.weight"%string, Torch.fc_weight);
            ("fc.bias"%string, Torch.fc_bias);
            ("bn.weight"%string, Torch.bn_weight)] in Hnp.
    rewrite !elem_of_cons, elem_of_nil in Hnp.
    destruct Hnp as [->|[->|[->|[]]]]; vm_compute; eauto. }
  { by apply (bool_decide_unpack _). }
  exists h'. split; [exact Hrun|]. split.
  - rewrite (Heffect "fc.weight"%string Torch.fc_weight 2%positive [1; 1]%Q);
      [reflexivity|left|reflexivity|reflexivity].
  - rewrite Hframe; [reflexivity|].
    intros np Hnp.
    change (Torch.named_parameters Torch.toy_model)
      with [("fc.weight"%string, Torch.fc_weight);
            ("fc.bias"%string, Torch.fc_bias);
            ("bn.weight"%string, Torch.bn_weight)] in Hnp.
    rewrite !elem_of_cons, elem_of_nil in Hnp.
    destruct Hnp as [->|[->|[->|[]]]]; discriminate.
Defined.

(** ** The passes of a group *)

Section GroupPasses.
Import Train Calls.
Variable a : args.

(** A kind of event that only the forward-to-meters part of a pass can
    emit is counted once per pass. *)
Lemma train_range_count (p : event → bool) (c : nat) start n :
  0 < batch_accumulate_num a → 0 < workers_number a →
  (∀ w, p (Pull w) = false) → p ZeroGrad = false →
  (∀ i, p (GetGradients i) = false) →
  (∀ w g ep t it, p (Push w g ep t it) = false) →
  (∀ i, p (SaveStepNorm i) = false) → p BarNext = false →
  (∀ i, count p (compute_events a i) = c) →
  ∃ evs, train_range a start n = Some evs ∧ count p evs = (n * c)%nat.
Proof.
  intros Hb HW Hpull Hzero Hget Hpush Hsave Hbar Hc. revert start.
  induction n as [|n IH]; intros start; [by exists []|].
  destruct (IH (start + 1)) as (rest & Hrest & Hcount).
  cbn [train_range]. rewrite train_body_index by lia.
  cbn [mbind option_bind]. rewrite Hrest. cbn [mbind option_bind].
  eexists. split; [done|].
  rewrite !count_app, Hc, Hcount, count_bar by done.
  destruct (decide (_ = 0)), (decide (_ = _ - 1));
    rewrite ?count_cons, ?Hpull, ?Hzero, ?Hget, ?Hpush, ?Hsave;
    unfold count; simpl; lia.
Qed.

(** [zero_grad] comes with the pull, and only with it. *)
Lemma train_range_zero_grad start n :
  0 < batch_accumulate_num a → 0 < workers_number a →
  ∃ evs, train_range a start n = Some evs ∧
    count is_zero_grad evs = count is_pull evs.
Proof.
  intros Hb HW. revert start.
  induction n as [|n IH]; intros start; [by exists []|].
  destruct (IH (start + 1)) as (rest & Hrest & Hcount).
  cbn [train_range]. rewrite train_body_index by lia.
  cbn [mbind option_bind]. rewrite Hrest. cbn [mbind option_bind].
  eexists. split; [done|].
  rewrite !count_app, Hcount, !count_bar by done.
  assert (Hz : count is_zero_grad (compute_events a start) = 0%nat).
  { unfold compute_events. by destruct (Qlt_le_dec _ _). }
  assert (Hp : count is_pull (compute_events a start) = 0%nat).
  { unfold compute_events. by destruct (Qlt_le_dec _ _). }
  rewrite Hz, Hp.
  destruct (decide (_ = 0)), (decide (_ = _ - 1)); unfold count; simpl; lia.
Qed.

Lemma count_compute_events_weight_decay i :
  count is_weight_decay (compute_events a i) = 1%nat.
Proof. unfold compute_events. by destruct (Qlt_le_dec _ _). Qed.

End GroupPasses.

(** X21: between the single [zero_grad] of a group (issued with its pull)
    and its push, the gradients go through [batch_accumulate_num] backward
    passes, each followed by one weight-decay step and, when
    [grad_clip < 1000], one clipping: the decay and the clipping act on the
    accumulating gradient once per batch, not once per push. *)
Theorem passes_of_a_group (a : Train.args) (g : Z) :
  0 < Train.batch_accumulate_num a → 0 < Train.workers_number a →
  ∃ evs, Train.train_group a g = Some evs ∧
    Train.count Calls.is_zero_grad evs = 1%nat ∧
    Train.count Train.is_backward evs
    = Z.to_nat (Train.batch_accumulate_num a) ∧
    Train.count Train.is_weight_decay evs
    = Z.to_nat (Train.batch_accumulate_num a) ∧
    Train.count Train.is_clip evs
    = (if Qlt_le_dec (Train.grad_clip a) 1000
       then Z.to_nat (Train.batch_accumulate_num a) else 0%nat).
Proof.
  intros Hb HW. unfold Train.train_group.
  destruct (train_group_calls a g Hb HW) as (evs & Hrun & Hcalls & Hbw).
  unfold Train.train_group in Hrun.
  exists evs. split; [done|].
  destruct (train_range_zero_grad a (g * Train.batch_accumulate_num a)
              (Z.to_nat (Train.batch_accumulate_num a)) Hb HW)
    as (evs1 & Hrun1 & Hzero).
  destruct (train_range_count a Train.is_weight_decay 1
              (g * Train.batch_accumulate_num a)
              (Z.to_nat (Train.batch_accumulate_num a)) Hb HW)
    as (evs2 & Hrun2 & Hwd);
    [done..|apply count_compute_events_weight_decay|].
  destruct (train_range_count a Train.is_clip
              (if Qlt_le_dec (Train.grad_clip a) 1000 then 1 else 0)%nat
              (g * Train.batch_accumulate_num a)
              (Z.to_nat (Train.batch_accumulate_num a)) Hb HW)
    as (evs3 & Hrun3 & Hclip);
    [done..|apply count_compute_events_clip|].
  rewrite Hrun in Hrun1, Hrun2, Hrun3.
  injection Hrun1 as <-. injection Hrun2 as <-. injection Hrun3 as <-.
  split_and!.
  - rewrite Hzero.
    rewrite <- (count_server_calls Train.is_pull evs) by (by intros []).
    by rewrite Hcalls.
  - done.
  - rewrite Hwd. lia.
  - rewrite Hclip. destruct (Qlt_le_dec _ _); lia.
Qed.

Lemma passes_of_a_group_witness :
  ∃ evs, Train.train_group (Train.Args 3 4 5 2 true) 5 = Some evs ∧
    Train.count Calls.is_zero_grad evs = 1%nat ∧
    Train.count Train.is_backward evs = 2%nat ∧
    Train.count Train.is_weight_decay evs = 2%nat ∧
    Train.count Train.is_clip evs = 2%nat.
Proof.
  apply (passes_of_a_group (Train.Args 3 4 5 2 true) 5); simpl; lia.
Defined.

(** ** Resuming the loop over epochs *)

Section ResumeLoop.
Import Epochs.
Variables name time_stamp : string.
Variable save : Z.

Lemma epochs_from_is_Some start len :
  save ≠ 0 → is_Some (epochs_from name time_stamp save start len).
Proof.
  intros Hs. revert start. induction len as [|len IH]; intros start; [done|].
  cbn [epochs_from]. rewrite epoch_body_Some by done.
  destruct (IH (start + 1)) as [rest ->]. done.
Qed.

Lemma epochs_from_app start n m :
  save ≠ 0 →
  ∃ evs1 evs2,
    epochs_from name time_stamp save start n = Some evs1 ∧
    epochs_from name time_stamp save (start + Z.of_nat n) m = Some evs2 ∧
    epochs_from name time_stamp save start (n + m) = Some (evs1 ++ evs2).
Proof.
  intros Hs. revert start. induction n as [|n IH]; intros start.
  - destruct (epochs_from_is_Some start m Hs) as [evs2 Hevs2].
    exists [], evs2. replace (start + Z.of_nat 0) with start by lia.
    by rewrite Nat.add_0_l.
  - destruct (IH (start + 1)) as (evs1 & evs2 & H1 & H2 & H12).
    replace (start + 1 + Z.of_nat n) with (start + Z.of_nat (S n)) in H2
      by lia.
    cbn [epochs_from Nat.add]. rewrite epoch_body_Some by done.
    cbn [mbind option_bind]. rewrite H1, H12. cbn [mbind option_bind].
    eexists _, evs2. split; [done|]. split; [done|].
    by rewrite <- !app_assoc.
Qed.

End ResumeLoop.

(** X22: the checkpoint written after epoch [e] stores [e + 1], and what
    the loop does after writing it is what the loop does when it starts at
    the stored epoch, the value the resume block gives [args.start_epoch]:
    a run resumed from the checkpoint repeats no epoch and leaves out
    none (its later checkpoints carry the time stamp of the resumed
    run). *)
Theorem resumed_loop_continues (name time_stamp : string)
    (save start_epoch epochs e : Z) :
  save ≠ 0 → start_epoch ≤ e < epochs → 0 < e → e `mod` save = 0 →
  ∃ before after,
    Epochs.epoch_loop name time_stamp save start_epoch epochs
    = Some (before
            ++ [Epochs.SaveCheckpoint (e + 1)
                  (Epochs.sim_name name time_stamp e)]
            ++ after) ∧
    Epochs.epoch_loop name time_stamp save (e + 1) epochs = Some after ∧
    (∀ e', Epochs.TrainEpoch e' ∈ before ↔ start_epoch ≤ e' ≤ e) ∧
    (∀ e', Epochs.TrainEpoch e' ∈ after ↔ e + 1 ≤ e' < epochs).
Proof.
  intros Hs He Hpos Hmod. unfold Epochs.epoch_loop.
  destruct (epochs_from_app name time_stamp save start_epoch
              (Z.to_nat (e - start_epoch) + 1) (Z.to_nat (epochs - (e + 1))) Hs)
    as (evs1 & after & H1 & Hafter & Hall).
  destruct (epochs_from_app name time_stamp save start_epoch
              (Z.to_nat (e - start_epoch)) 1 Hs)
    as (evs0 & last & H0 & Hlast & H01).
  rewrite H1 in H01. injection H01 as ->.
  replace (start_epoch + Z.of_nat (Z.to_nat (e - start_epoch))) with e
    in Hlast by lia.
  cbn [Epochs.epochs_from] in Hlast.
  rewrite epoch_body_Some in Hlast by done.
  rewrite decide_True in Hlast by done.
  cbn [mbind option_bind] in Hlast. injection Hlast as <-.
  replace (start_epoch + Z.of_nat (Z.to_nat (e - start_epoch) + 1))
    with (e + 1) in Hafter by lia.
  replace (Z.to_nat (e - start_epoch) + 1 + Z.to_nat (epochs - (e + 1)))%nat
    with (Z.to_nat (epochs - start_epoch)) in Hall by lia.
  exists (evs0 ++ [Epochs.TrainEpoch e; Epochs.Validate e;
                   Epochs.SaveStatistics e]), after.
  split; [|split; [done|split]].
  - rewrite Hall. f_equal. by rewrite <- !app_assoc.
  - destruct (epochs_from_spec name time_stamp save start_epoch
                (Z.to_nat (e - start_epoch)) Hs) as (evs0' & H0' & Htrain & _).
    rewrite H0 in H0'. injection H0' as <-.
    intros e'. rewrite elem_of_app, Htrain, !elem_of_cons, elem_of_nil.
    split.
    + intros [H|[H|[H|[H|[]]]]]; simplify_eq; lia.
    + intros He'. destruct (decide (e' = e)) as [->|]; [right; by left|].
      left. lia.
  - destruct (epochs_from_spec name time_stamp save (e + 1)
                (Z.to_nat (epochs - (e + 1))) Hs) as (after' & Ha' & Htrain & _).
    rewrite Hafter in Ha'. injection Ha' as <-.
    intros e'. rewrite Htrain. lia.
Qed.

Lemma resumed_loop_continues_witness :
  ∃ before after,
    Epochs.epoch_loop "run" "4711" 2 0 5
    = Some (before
            ++ [Epochs.SaveCheckpoint 3 (Epochs.sim_name "run" "4711" 2)]
            ++ after) ∧
    Epochs.epoch_loop "run" "4711" 2 3 5 = Some after.
Proof.
  destruct (resumed_loop_continues "run" "4711" 2 0 5 2)
    as (before & after & Hall & Hafter & _); [done|lia|lia|done|].
  by exists before, after.
Defined.


(** ** [validate] *)

Section ValidateFacts.
Import AverageMeter Validate.











End ValidateFacts.



(** With the floats of torch, a batch of 45 samples, all of them ranked
    right, has a top-1 precision above 100 and the error [validate] reports
    is negative: [-2^-17]. *)
Example validate_float_error :
  ∃ l e5,
    Validate.validate Num.torch_floats 5
      [Validate.Batch (Num.tenth 1) (replicate 45 [0; 1; 2; 3; 4])
         (replicate 45 0)]
    = Some (l, S754_finite true 4503599627370496 (-69), e5).
Proof. eexists _, _. vm_compute. reflexivity. Qed.
